(** * Relay engine of the chat server: registry, router and file relay.

    A shallow embedding of [src/server.cpp], [src/utils.cpp],
    [src/file_transfer.cpp], [include/encryption.hpp] and the request and
    transfer code of [src/client.cpp].

    Modelling conventions.
    - [std::string] is [string] (a sequence of 8-bit characters); [long],
      [ssize_t] and socket descriptors are [Z].
    - [std::map<std::string, ClientInfo>] is a list of bindings kept in
      ascending key order, the order in which the C++ container iterates.
    - The socket calls [recv], [send] and [close] act on a [World] that
      holds, per descriptor, what the peer will deliver and how the kernel
      will answer each write; every call is recorded in a trace.
    - Console and log-file output ([std::cout], [std::cerr], [logEvent])
      and the fixed sleeps of the file hand-shake carry no data to a peer
      and are left out.
    - Each block guarded by [clients_mutex] is one atomic step. *)

From Stdlib Require Import ZArith List String Ascii Bool Lia Arith.
From Stdlib Require Import Sorted OrdersEx DecimalString RelationClasses.
From Stdlib Require DecimalPos.
From Equations Require Import Equations.
Import ListNotations.

Local Open Scope string_scope.

(** ** Characters and strings *)

Definition is_empty (s : string) : bool :=
  match s with
  | EmptyString => true
  | String _ _ => false
  end.

(** [isalnum] and [isspace] of <cctype> in the "C" locale. *)
Definition isalnum (c : ascii) : bool :=
  let n := nat_of_ascii c in
  ((48 <=? n) && (n <=? 57) || (65 <=? n) && (n <=? 90) ||
   (97 <=? n) && (n <=? 122))%nat.

Definition isdigit (c : ascii) : bool :=
  let n := nat_of_ascii c in ((48 <=? n) && (n <=? 57))%nat.

Definition isspace (c : ascii) : bool :=
  let n := nat_of_ascii c in ((n =? 32) || (9 <=? n) && (n <=? 13))%nat.

(** Conversion of a NUL-terminated [char] buffer to [std::string]: the
    characters before the first NUL. *)
Fixpoint c_str (buf : string) : string :=
  match buf with
  | EmptyString => EmptyString
  | String c rest => if Ascii.eqb c zero then EmptyString else String c (c_str rest)
  end.

(** [std::to_string(long)]. *)
Definition to_string (n : Z) : string :=
  NilZero.string_of_int (Z.to_int n).

Module Utils.

(** [str.find_first_not_of(c)]; [None] is [npos]. *)
Fixpoint find_first_not_of (str : string) (c : ascii) : option nat :=
  match str with
  | EmptyString => None
  | String a rest =>
      if Ascii.eqb a c then option_map S (find_first_not_of rest c) else Some 0%nat
  end.

(** [str.find_last_not_of(c)]; [None] is [npos]. *)
Fixpoint find_last_not_of (str : string) (c : ascii) : option nat :=
  match str with
  | EmptyString => None
  | String a rest =>
      match find_last_not_of rest c with
      | Some i => Some (S i)
      | None => if Ascii.eqb a c then None else Some 0%nat
      end
  end.

(** [Utils::trim].  When [first] is found, [last] is found too; in the
    other branch [last - first + 1] wraps to a count that reaches the end
    of the string. *)
Definition trim (str : string) : string :=
  match find_first_not_of str " " with
  | None => ""
  | Some first =>
      match find_last_not_of str " " with
      | Some last => substring first (last - first + 1) str
      | None => substring first (length str - first) str
      end
  end.

(** The [while (std::getline(ss, token, delimiter))] loop of
    [Utils::split]: [tok] is the token read so far, in reverse.  A read
    that meets the end of the input without having extracted a character
    fails and ends the loop. *)
Fixpoint split_loop (str : string) (delimiter : ascii) (tok : list ascii)
  : list string :=
  match str with
  | EmptyString =>
      match tok with
      | [] => []
      | _ => [string_of_list_ascii (rev tok)]
      end
  | String c rest =>
      if Ascii.eqb c delimiter
      then string_of_list_ascii (rev tok) :: split_loop rest delimiter []
      else split_loop rest delimiter (c :: tok)
  end.

Definition split (str : string) (delimiter : ascii) : list string :=
  split_loop str delimiter [].

(** [(double) size] for a [long] that is not negative, as the integer
    it denotes: a value of up to 53 bits is kept, a longer one is
    rounded to 53 significant bits, ties to even. *)
Definition to_double (size : Z) : Z :=
  if (size <? 2 ^ 53)%Z then size
  else
    let e := (Z.log2 size - 52)%Z in
    let q := (size / 2 ^ e)%Z in
    let r := (size mod 2 ^ e)%Z in
    let q' :=
      if (2 ^ e <? 2 * r)%Z then (q + 1)%Z
      else if (2 * r =? 2 ^ e)%Z then (if Z.even q then q else q + 1)%Z
      else q in
    (q' * 2 ^ e)%Z.

(** [Utils::formatFileSize].  [size / 1024.0] and
    [size / (1024.0 * 1024.0)] convert [size] to [double] and divide by
    a power of two, which is exact; ["%.1f"] prints the exact value
    rounded to one decimal, ties to even; [tenths] is that rounding. *)
Definition tenths (size unit : Z) : Z :=
  let q := ((size * 10) / unit)%Z in
  let r := ((size * 10) mod unit)%Z in
  if (unit <? 2 * r)%Z then (q + 1)%Z
  else if (2 * r =? unit)%Z then (if Z.even q then q else q + 1)%Z
  else q.

Definition one_decimal (t : Z) : string :=
  to_string (t / 10)%Z ++ "." ++ to_string (t mod 10)%Z.

Definition formatFileSize (size : Z) : string :=
  if (size <? 1024)%Z then to_string size ++ " B"
  else if (size <? 1024 * 1024)%Z
  then one_decimal (tenths (to_double size) 1024) ++ " KB"
  else one_decimal (tenths (to_double size) (1024 * 1024)) ++ " MB".

End Utils.

(** ** The XOR pass of [Encryption], switched off by [isEnabled] *)

Module Encryption.

Definition DEFAULT_KEY : string := "NetworkChat2025!SecureKey#".

Definition xor_char (a b : ascii) : ascii :=
  ascii_of_N (N.lxor (N_of_ascii a) (N_of_ascii b)).

Fixpoint encrypt_from (i : nat) (plaintext key : string) : string :=
  match plaintext with
  | EmptyString => EmptyString
  | String c rest =>
      let k := match get (i mod length key) key with
               | Some k => k
               | None => zero
               end in
      String (xor_char c k) (encrypt_from (S i) rest key)
  end.

Definition encrypt (plaintext : string) : string :=
  encrypt_from 0 plaintext DEFAULT_KEY.

Definition decrypt (ciphertext : string) : string := encrypt ciphertext.

Definition isEnabled : bool := false.

End Encryption.

(** ** The registry container *)

Definition socket := Z.

Record sockaddr_in := mkAddr { sin_addr : N; sin_port : N }.

Record ClientInfo := mkClient {
  socket_fd : socket;
  username : string;
  address : sockaddr_in }.

(** [std::map<std::string, V>]: bindings in ascending order of
    [std::string::compare], which orders characters as unsigned bytes. *)
Module StdMap.

Section WithValue.
Context {V : Type}.

Definition t := list (string * V).

Definition empty : t := [].

Definition keys (m : t) : list string := map fst m.

Fixpoint find (k : string) (m : t) : option V :=
  match m with
  | [] => None
  | (k', v) :: rest =>
      match String_as_OT.compare k k' with
      | Eq => Some v
      | Lt => None
      | Gt => find k rest
      end
  end.

(** [m[k] = v] *)
Fixpoint assign (k : string) (v : V) (m : t) : t :=
  match m with
  | [] => [(k, v)]
  | (k', v') :: rest =>
      match String_as_OT.compare k k' with
      | Eq => (k, v) :: rest
      | Lt => (k, v) :: (k', v') :: rest
      | Gt => (k', v') :: assign k v rest
      end
  end.

(** [m.erase(k)] *)
Fixpoint erase (k : string) (m : t) : t :=
  match m with
  | [] => []
  | (k', v') :: rest =>
      match String_as_OT.compare k k' with
      | Eq => rest
      | Lt => m
      | Gt => (k', v') :: erase k rest
      end
  end.

Definition size (m : t) : nat := List.length m.

(** The representation invariant: keys strictly ascending. *)
Definition ordered (m : t) : Prop := Sorted String_as_OT.lt (keys m).

End WithValue.

Arguments t : clear implicits.

End StdMap.

Definition clients_map := StdMap.t ClientInfo.

(** [ChatServer::isValidUsername] *)
Fixpoint username_chars_ok (s : string) : bool :=
  match s with
  | EmptyString => true
  | String c rest =>
      if negb (isalnum c) && negb (Ascii.eqb c "_") && negb (Ascii.eqb c "-")
      then false
      else username_chars_ok rest
  end.

Definition isValidUsername (username : string) : bool :=
  if is_empty username || (20 <? length username)%nat then false
  else username_chars_ok username.

(** The loop of [ChatServer::getActiveUsers] over the bindings. *)
Fixpoint getActiveUsers_loop (m : clients_map) (users : string) : string :=
  match m with
  | [] => users
  | (name, _) :: rest =>
      let users := if negb (is_empty users) then users ++ ", " else users in
      getActiveUsers_loop rest (users ++ name)
  end.

Definition getActiveUsers (clients : clients_map) : string :=
  let users := getActiveUsers_loop clients "" in
  if is_empty users then "No users online" else users.

(** ** Sockets

    What a descriptor will do is fixed by the [World]: [inbound fd] lists
    what successive [recv] calls on [fd] will meet, [outbound fd] how the
    kernel answers successive [send] calls. *)

Inductive segment :=
| Data (bytes : string)   (* bytes that have arrived *)
| Reset.                  (* the read fails with -1 *)

Inductive write_answer :=
| Written                 (* the whole buffer is taken *)
| Short (k : nat)         (* at most [k] bytes are taken *)
| Failed.                 (* the write fails with -1 *)

Inductive event :=
| ERecv (fd : socket) (requested : Z) (ret : Z) (data : string)
| ESend (fd : socket) (data : string) (ret : Z)
| EClose (fd : socket).

Record World := mkWorld {
  clients : clients_map;                (* the registry, under clients_mutex *)
  inbound : socket -> list segment;     (* an exhausted list: the peer closed *)
  outbound : socket -> list write_answer; (* an exhausted list: writes succeed *)
  trace : list event }.

Definition set_clients (m : clients_map) (w : World) : World :=
  mkWorld m (inbound w) (outbound w) (trace w).

Definition set_inbound (fd : socket) (l : list segment) (w : World) : World :=
  mkWorld (clients w)
          (fun fd' => if (fd' =? fd)%Z then l else inbound w fd')
          (outbound w) (trace w).

Definition set_outbound (fd : socket) (l : list write_answer) (w : World) : World :=
  mkWorld (clients w) (inbound w)
          (fun fd' => if (fd' =? fd)%Z then l else outbound w fd')
          (trace w).

Definition log (e : event) (w : World) : World :=
  mkWorld (clients w) (inbound w) (outbound w) (trace w ++ [e]).

Definition strlen (s : string) : Z := Z.of_nat (length s).

(** [recv(fd, buffer, n, 0)]: the return value and the bytes stored. *)
Definition recv (fd : socket) (n : Z) (w : World) : (Z * string) * World :=
  match inbound w fd with
  | [] => ((0, ""), log (ERecv fd n 0 "") w)
  | Reset :: rest => ((-1, ""), log (ERecv fd n (-1) "") (set_inbound fd rest w))
  | Data bytes :: rest =>
      let k := Z.to_nat n in
      let got := substring 0 k bytes in
      let left := substring k (length bytes - k) bytes in
      let rest' := if is_empty left then rest else Data left :: rest in
      ((strlen got, got), log (ERecv fd n (strlen got) got) (set_inbound fd rest' w))
  end%Z.

Definition send_ret (a : write_answer) (len : Z) : Z :=
  match a with
  | Written => len
  | Short k => Z.min (Z.of_nat k) len
  | Failed => -1
  end%Z.

(** [send(fd, data, length, 0)]: the return value. *)
Definition send (fd : socket) (data : string) (w : World) : Z * World :=
  match outbound w fd with
  | [] => (strlen data, log (ESend fd data (strlen data)) w)
  | a :: rest =>
      let r := send_ret a (strlen data) in
      (r, log (ESend fd data r) (set_outbound fd rest w))
  end.

Definition close (fd : socket) (w : World) : World := log (EClose fd) w.

(** The payloads handed to [send], with their descriptors. *)
Fixpoint sends (tr : list event) : list (socket * string) :=
  match tr with
  | [] => []
  | ESend fd data _ :: rest => (fd, data) :: sends rest
  | _ :: rest => sends rest
  end.

(** ** The file relay ([FileTransferHandler]) *)

Module FileTransferHandler.

Definition CHUNK_SIZE : Z := 8192.
Definition MAX_FILE_SIZE : Z := 10 * 1024 * 1024.

(** The [while (total_transferred < file_size)] loop of [streamFileData].
    The result carries the final [total_transferred] next to the returned
    flag.  Each turn that continues adds [bytes_received > 0], so the
    distance to [file_size] shrinks. *)
Equations? stream_loop (sender_socket recipient_socket : socket)
    (file_size total_transferred : Z) (w : World)
  : (bool * Z) * World
  by wf (Z.to_nat (file_size - total_transferred)) lt :=
stream_loop sender_socket recipient_socket file_size total_transferred w
  with Z_lt_dec total_transferred file_size := {
  | right _ => ((true, total_transferred), w)
  | left _
    with recv sender_socket
              (Z.min (file_size - total_transferred) CHUNK_SIZE) w := {
    | ((bytes_received, buffer), w1) with Z_le_dec bytes_received 0 := {
      | left _ => ((false, total_transferred), w1)
      | right _ with send recipient_socket buffer w1 := {
        | (bytes_sent, w2) with Z_le_dec bytes_sent 0 := {
          | left _ => ((false, total_transferred), w2)
          | right _ =>
              stream_loop sender_socket recipient_socket file_size
                          (total_transferred + bytes_received) w2 } } } } }.
Proof.
  lia.
Qed.

(** [streamFileData]; the two names and the file name only reach the
    console. *)
Definition streamFileData (sender_socket recipient_socket : socket)
    (sender_username recipient_username filename : string)
    (file_size : Z) (w : World) : (bool * Z) * World :=
  stream_loop sender_socket recipient_socket file_size 0 w.

End FileTransferHandler.

(** ** Exceptions and the thread monad *)

Inductive exn := invalid_argument | out_of_range.

Inductive result (A : Type) :=
| Ret (a : A) (w : World)
| Raise (e : exn) (w : World).

Arguments Ret {A} a w.
Arguments Raise {A} e w.

Definition M (A : Type) := World -> result A.

Definition ret {A} (a : A) : M A := fun w => Ret a w.

Definition raise {A} (e : exn) : M A := fun w => Raise e w.

Definition bind {A B} (m : M A) (k : A -> M B) : M B :=
  fun w => match m w with
           | Ret a w' => k a w'
           | Raise e w' => Raise e w'
           end.

(** A call that cannot throw. *)
Definition call {A} (f : World -> A * World) : M A :=
  fun w => let (a, w') := f w in Ret a w'.

Definition act (f : World -> World) : M unit := fun w => Ret tt (f w).

Declare Scope thread_scope.
Delimit Scope thread_scope with thread.
Notation "x <- m ;; k" := (bind m (fun x => k))
  (at level 61, m at next level, right associativity) : thread_scope.
Notation "m ;; k" := (bind m (fun _ => k))
  (at level 61, right associativity) : thread_scope.

(** [std::stol(str)] in base 10 for a 64-bit [long]: leading white space,
    an optional sign, then the longest run of digits; what follows the
    digits is ignored. *)
Definition LONG_MAX : Z := 9223372036854775807.
Definition LONG_MIN : Z := - LONG_MAX - 1.

Fixpoint skip_space (s : string) : string :=
  match s with
  | EmptyString => EmptyString
  | String c rest => if isspace c then skip_space rest else s
  end.

Definition digit_value (c : ascii) : Z := Z.of_nat (nat_of_ascii c) - 48.

(** The value of the leading digits, [None] when there is none. *)
Fixpoint digits (s : string) (acc : option Z) : option Z :=
  match s with
  | EmptyString => acc
  | String c rest =>
      if isdigit c
      then digits rest (Some (10 * match acc with Some a => a | None => 0 end
                              + digit_value c)%Z)
      else acc
  end.

Definition stol (str : string) : exn + Z :=
  let s := skip_space str in
  let (negative, s) :=
    match s with
    | String "-" rest => (true, rest)
    | String "+" rest => (false, rest)
    | _ => (false, s)
    end in
  match digits s None with
  | None => inl invalid_argument
  | Some v =>
      let v := if negative then (- v)%Z else v in
      if (v <? LONG_MIN)%Z || (LONG_MAX <? v)%Z then inl out_of_range else inr v
  end.

(** ** The server ([ChatServer]) *)

Module ChatServer.

Local Open Scope Z_scope.

(** [s.find(pattern, pos)]; [None] is [npos]. *)
Definition find (s pattern : string) (pos : nat) : option nat := index pos pattern s.

Definition found_at_0 (o : option nat) : bool :=
  match o with
  | Some O => true
  | _ => false
  end.

(** [s.substr(pos)] *)
Definition substr_from (s : string) (pos : nat) : string :=
  substring pos (length s - pos) s.

Definition maybe_encrypt (msg : string) : string :=
  if Encryption.isEnabled then Encryption.encrypt msg else msg.

(** The UTF-8 bytes of the check mark in the completion notice. *)
Definition check_mark : string :=
  String (ascii_of_nat 226) (String (ascii_of_nat 156)
    (String (ascii_of_nat 147) EmptyString)).

Definition send_ (fd : socket) (data : string) (w : World) : World :=
  snd (send fd data w).

(** [ChatServer::registerClient] *)
Definition registerClient (username : string) (client : ClientInfo) (w : World)
  : World :=
  set_clients (StdMap.assign username client (clients w)) w.

(** [ChatServer::deregisterClient] *)
Definition deregisterClient (username : string) (w : World) : World :=
  set_clients (StdMap.erase username (clients w)) w.

(** [ChatServer::broadcast]: one pass over the bindings, under the lock. *)
Fixpoint broadcast_loop (m : clients_map) (encrypted_message sender : string)
    (w : World) : World :=
  match m with
  | [] => w
  | (name, info) :: rest =>
      let w := if negb (String.eqb name sender)
               then send_ (socket_fd info) encrypted_message w
               else w in
      broadcast_loop rest encrypted_message sender w
  end.

Definition broadcast (message sender : string) (w : World) : World :=
  broadcast_loop (clients w) (maybe_encrypt message) sender w.

(** [ChatServer::sendPrivateMessage] *)
Definition sendPrivateMessage (target message sender : string) (w : World)
  : World :=
  match StdMap.find target (clients w) with
  | Some it =>
      let to_recipient :=
        maybe_encrypt ("[PRIVATE] " ++ sender ++ " -> You: " ++ message) in
      let to_sender :=
        maybe_encrypt ("[PRIVATE] You -> " ++ target ++ ": " ++ message) in
      let w := send_ (socket_fd it) to_recipient w in
      match StdMap.find sender (clients w) with
      | Some sender_it => send_ (socket_fd sender_it) to_sender w
      | None => w
      end
  | None =>
      let error_msg :=
        maybe_encrypt ("ERROR: User '" ++ target ++ "' not found or offline") in
      match StdMap.find sender (clients w) with
      | Some sender_it => send_ (socket_fd sender_it) error_msg w
      | None => w
      end
  end.

(** [ChatServer::handleFileTransfer] *)
Definition handleFileTransfer (sender_socket : socket)
    (sender_username recipient_username filename : string) (file_size : Z)
    (w : World) : World :=
  let recipient_socket :=
    match StdMap.find recipient_username (clients w) with
    | Some it => socket_fd it
    | None => -1
    end in
  if recipient_socket =? -1 then
    send_ sender_socket
          ("ERROR: User '" ++ recipient_username ++ "' is not online") w
  else
    let file_offer :=
      "/file_offer from " ++ sender_username ++ " (" ++ filename ++ ", "
        ++ Utils.formatFileSize file_size ++ ") - Accept? (y/n)" in
    let w := send_ recipient_socket file_offer w in
    let file_data_msg :=
      "/file_data " ++ sender_username ++ " " ++ filename ++ " "
        ++ to_string file_size in
    let w := send_ recipient_socket file_data_msg w in
    let '((success, _), w) :=
      FileTransferHandler.streamFileData sender_socket recipient_socket
        sender_username recipient_username filename file_size w in
    if success then
      let complete_msg := "[FILE] " ++ check_mark ++ " Transfer complete!" in
      send_ recipient_socket complete_msg (send_ sender_socket complete_msg w)
    else
      let error_msg := "ERROR: File transfer failed" in
      send_ recipient_socket error_msg (send_ sender_socket error_msg w).

(** [ChatServer::processMessage].  [std::stol] is the one call that can
    throw, and nothing here catches. *)
Definition processMessage (message sender_username : string)
    (sender_socket : socket) : M unit :=
  (if String.eqb message "/list" then
     act (fun w =>
       let user_list :=
         maybe_encrypt ("Active users: " ++ getActiveUsers (clients w)) in
       send_ sender_socket user_list w)
   else if found_at_0 (find message "@" 0) then
     match find message " " 1 with
     | Some first_space =>
         let target := substring 1 (first_space - 1)%nat message in
         let content := substr_from message (first_space + 1) in
         act (sendPrivateMessage target content sender_username)
     | None =>
         act (send_ sender_socket
                (maybe_encrypt "ERROR: Invalid format. Use: @username message"))
     end
   else if found_at_0 (find message "/sendfile" 0) then
     let parts := Utils.split message " " in
     if (List.length parts <? 4)%nat then
       act (send_ sender_socket
              (maybe_encrypt "Usage: /sendfile <username> <filename> <file_size>"))
     else
       let target_user := nth 1 parts "" in
       let filename := nth 2 parts "" in
       match stol (nth 3 parts "") with
       | inl e => raise e
       | inr file_size =>
           if (file_size <=? 0) || (file_size >? 10 * 1024 * 1024) then
             act (send_ sender_socket
                    (maybe_encrypt "ERROR: Invalid file size (max 10MB)"))
           else
             act (handleFileTransfer sender_socket sender_username target_user
                                     filename file_size)
       end
   else if String.eqb message "/quit" then
     act (send_ sender_socket (maybe_encrypt ("Goodbye " ++ sender_username ++ "!")))
   else
     act (broadcast (sender_username ++ ": " ++ message) sender_username))%thread.

(** *** [ChatServer::handleClient], phase by phase *)

(** Phase 1, up to the format check: the claimed name, or [None] when
    the connection has been closed. *)
Definition receive_username (client_socket : socket) (w : World)
  : option string * World :=
  let '((bytes_read, buffer), w) := recv client_socket 4095 w in
  if bytes_read <=? 0 then (None, close client_socket w)
  else
    let username := Utils.trim (c_str buffer) in
    if is_empty username || negb (isValidUsername username) then
      let error_msg := "ERROR: Invalid username. Use only alphanumeric, _, and -" in
      (None, close client_socket (send_ client_socket error_msg w))
    else (Some username, w).

(** The duplicate check, one block under [clients_mutex]: [true] when the
    name is free. *)
Definition check_duplicate (client_socket : socket) (username : string)
    (w : World) : bool * World :=
  match StdMap.find username (clients w) with
  | Some _ =>
      let error_msg := "ERROR: Username '" ++ username ++ "' is already taken" in
      (false, close client_socket (send_ client_socket error_msg w))
  | None => (true, w)
  end.

(** The welcome message and the join notice. *)
Definition welcome (client_socket : socket) (username : string) (w : World)
  : World :=
  let welcome_msg :=
    maybe_encrypt ("Welcome " ++ username
                   ++ "! Type /list, /quit, @user msg, /sendfile user file") in
  let w := send_ client_socket welcome_msg w in
  broadcast (username ++ " joined the chat!") username w.

(** Phases 1 and 2: [Some username] when the connection goes on to the
    message loop, [None] when [handleClient] has returned. *)
Definition authenticate (client_socket : socket) (client_addr : sockaddr_in)
    (w : World) : option string * World :=
  match receive_username client_socket w with
  | (None, w) => (None, w)
  | (Some username, w) =>
      match check_duplicate client_socket username w with
      | (false, w) => (None, w)
      | (true, w) =>
          let client_info := mkClient client_socket username client_addr in
          let w := registerClient username client_info w in
          (Some username, welcome client_socket username w)
      end
  end.

(** Phase 3.  [running] counts the loop tests that find the [running]
    flag set; [stop()] clears the flag. *)
Fixpoint message_loop (running : nat) (client_socket : socket)
    (username : string) : M unit :=
  match running with
  | O => ret tt
  | S running' =>
      (r <- call (recv client_socket 4095) ;;
       let '(bytes_read, buffer) := r in
       if bytes_read <=? 0 then ret tt
       else
         let encrypted_message := buffer in
         let message :=
           if Encryption.isEnabled && (0 <? length encrypted_message)%nat
           then Encryption.decrypt encrypted_message
           else encrypted_message in
         let message := Utils.trim message in
         if is_empty message then message_loop running' client_socket username
         else
           processMessage message username client_socket ;;
           if String.eqb message "/quit" then ret tt
           else message_loop running' client_socket username)%thread
  end.

(** Phase 4 *)
Definition cleanup (client_socket : socket) (username : string) (w : World)
  : World :=
  let w := broadcast (username ++ " left the chat") username w in
  let w := deregisterClient username w in
  close client_socket w.

Definition handleClient (running : nat) (client_socket : socket)
    (client_addr : sockaddr_in) : M unit :=
  (r <- call (authenticate client_socket client_addr) ;;
   match r with
   | None => ret tt
   | Some username =>
       message_loop running client_socket username ;;
       act (cleanup client_socket username)
   end)%thread.

(** A detached [std::thread] running [handleClient]: an exception that
    leaves the thread function ends in [std::terminate], which aborts the
    whole process. *)
Inductive process :=
| Serving (w : World)
| Aborted (e : exn) (w : World).

Definition client_thread (running : nat) (client_socket : socket)
    (client_addr : sockaddr_in) (w : World) : process :=
  match handleClient running client_socket client_addr w with
  | Ret _ w' => Serving w'
  | Raise e w' => Aborted e w'
  end.

(** *** Two connections authenticating at once

    A thread in phases 1 and 2 advances by atomic steps: the unlocked
    receive-and-validate, the locked duplicate check, the locked
    [registerClient], and the welcome. *)
Inductive auth_pc :=
| AtRecv
| AtCheck (username : string)
| AtRegister (username : string)
| AtWelcome (username : string)
| Active (username : string)
| Closed.

Record thread := mkThread {
  t_socket : socket;
  t_addr : sockaddr_in;
  t_pc : auth_pc }.

Definition thread_step (t : thread) (w : World) : thread * World :=
  let fd := t_socket t in
  let at_ pc := mkThread fd (t_addr t) pc in
  match t_pc t with
  | AtRecv =>
      match receive_username fd w with
      | (None, w) => (at_ Closed, w)
      | (Some username, w) => (at_ (AtCheck username), w)
      end
  | AtCheck username =>
      match check_duplicate fd username w with
      | (false, w) => (at_ Closed, w)
      | (true, w) => (at_ (AtRegister username), w)
      end
  | AtRegister username =>
      (at_ (AtWelcome username),
       registerClient username (mkClient fd username (t_addr t)) w)
  | AtWelcome username => (at_ (Active username), welcome fd username w)
  | Active _ | Closed => (t, w)
  end.

(** Run the threads in the order given by [schedule]; an entry names the
    thread that takes the next step. *)
Fixpoint update_nth {A} (n : nat) (x : A) (l : list A) : list A :=
  match l, n with
  | [], _ => []
  | _ :: rest, O => x :: rest
  | y :: rest, S n' => y :: update_nth n' x rest
  end.

Fixpoint run_schedule (schedule : list nat) (ts : list thread) (w : World)
  : list thread * World :=
  match schedule with
  | [] => (ts, w)
  | i :: schedule' =>
      match nth_error ts i with
      | None => run_schedule schedule' ts w
      | Some t =>
          let (t', w') := thread_step t w in
          run_schedule schedule' (update_nth i t' ts) w'
      end
  end.

End ChatServer.

(** ** Vocabulary of the statements *)

(** Registries the server can build: from the empty map, by
    [registerClient] under a name that passed [isValidUsername] (the only
    names [handleClient] registers) and by [deregisterClient]. *)
Inductive reachable : clients_map -> Prop :=
| reach_empty : reachable StdMap.empty
| reach_register (u : string) (c : ClientInfo) (m : clients_map) :
    reachable m -> isValidUsername u = true -> reachable (StdMap.assign u c m)
| reach_deregister (u : string) (m : clients_map) :
    reachable m -> reachable (StdMap.erase u m).

(** A run of [n] space characters. *)
Fixpoint spaces (n : nat) : string :=
  match n with
  | O => EmptyString
  | S n' => String " " (spaces n')
  end.

(** The character set of identities. *)
Definition identity_char (c : ascii) : Prop :=
  let n := nat_of_ascii c in
  (48 <= n <= 57 \/ 65 <= n <= 90 \/ 97 <= n <= 122 \/ c = "_"%char \/ c = "-"%char)%nat.

(** What [trim] keeps of the part after a first, kept character. *)
Definition rtrim (r : string) : string :=
  match Utils.find_last_not_of r " " with
  | Some j => substring 0 (S j) r
  | None => ""
  end.

Definition allowed (c : ascii) : bool :=
  isalnum c || Ascii.eqb c "_" || Ascii.eqb c "-".

(** Reading a trace of the relay. *)
Definition failed_read (e : event) : bool :=
  match e with
  | ERecv _ _ ret _ => (ret <=? 0)%Z
  | _ => false
  end.

Definition failed_write (e : event) : bool :=
  match e with
  | ESend _ _ ret => (ret <=? 0)%Z
  | _ => false
  end.

Definition failed_call (e : event) : bool := failed_read e || failed_write e.

(** The chunks that came in, the buffers handed on, the bytes counted. *)
Fixpoint chunks_in (tr : list event) : list string :=
  match tr with
  | [] => []
  | ERecv _ _ ret data :: rest =>
      if (0 <? ret)%Z then data :: chunks_in rest else chunks_in rest
  | _ :: rest => chunks_in rest
  end.

Fixpoint chunks_out (tr : list event) : list string :=
  match tr with
  | [] => []
  | ESend _ data _ :: rest => data :: chunks_out rest
  | _ :: rest => chunks_out rest
  end.

Fixpoint moved (tr : list event) : Z :=
  match tr with
  | [] => 0
  | ESend _ data ret :: rest =>
      ((if 0 <? ret then strlen data else 0) + moved rest)%Z
  | _ :: rest => moved rest
  end.

(** Every read asks for at most a chunk and gets at most what it asked
    for; reads are on [s], writes on [r]. *)
Definition relay_call (s r : socket) (e : event) : Prop :=
  match e with
  | ERecv fd requested ret data =>
      fd = s /\ (0 < requested <= FileTransferHandler.CHUNK_SIZE)%Z
      /\ (ret <= requested)%Z /\ (0 < ret -> ret = strlen data)%Z
  | ESend fd _ _ => fd = r
  | EClose _ => False
  end.

(** What one run of the loop from [total] leaves behind. *)
Definition relay_post (s r : socket) (file_size total : Z) (w : World)
    (out : (bool * Z) * World) : Prop :=
  let '((success, total'), w') := out in
  exists tr,
    trace w' = (trace w ++ tr)%list
    /\ clients w' = clients w
    /\ Forall (relay_call s r) tr
    /\ chunks_out tr = chunks_in tr
    /\ (total' = total + moved tr)%Z
    /\ (total <= total' <= file_size)%Z
    /\ success = negb (existsb failed_call tr)
    /\ (success = true -> total' = file_size)
    /\ (success = false -> total' < file_size)%Z.

(** ** Sample worlds *)

Section Samples.
Local Open Scope Z_scope.

Definition example_addr : sockaddr_in := mkAddr 2130706433 5000.

Definition example_registry : clients_map :=
  StdMap.assign "bob" (mkClient 5 "bob" example_addr)
    (StdMap.assign "alice" (mkClient 4 "alice" example_addr) StdMap.empty).

(** alice on socket 4 and bob on socket 5, nothing pending. *)
Definition example_world : World :=
  mkWorld example_registry (fun _ => []) (fun _ => []) [].

(** bob is registered; socket 4 is about to claim "alice". *)
Definition join_world : World :=
  mkWorld (StdMap.assign "bob" (mkClient 5 "bob" example_addr) StdMap.empty)
          (fun fd => if (fd =? 4)%Z then [Data "alice"] else [])
          (fun _ => []) [].

(** As [join_world], the claim between spaces. *)
Definition padded_world : World :=
  mkWorld (StdMap.assign "bob" (mkClient 5 "bob" example_addr) StdMap.empty)
          (fun fd => if (fd =? 4)%Z then [Data "  alice  "] else [])
          (fun _ => []) [].

(** As [join_world], the claim ending in a newline. *)
Definition newline_world : World :=
  mkWorld (StdMap.assign "bob" (mkClient 5 "bob" example_addr) StdMap.empty)
          (fun fd => if (fd =? 4)%Z
                     then [Data ("alice" ++ String (ascii_of_nat 10) "")]
                     else [])
          (fun _ => []) [].

(** As [join_world], followed by a "/sendfile" whose size is no number. *)
Definition crash_world : World :=
  mkWorld (StdMap.assign "bob" (mkClient 5 "bob" example_addr) StdMap.empty)
          (fun fd => if (fd =? 4)%Z
                     then [Data "alice"; Data "/sendfile bob notes.txt abc";
                           Data "/quit"]
                     else [])
          (fun _ => []) [].

(** Socket 4 delivers eight bytes in two segments. *)
Definition relay_world : World :=
  mkWorld example_registry
          (fun fd => if (fd =? 4)%Z then [Data "12345"; Data "678"] else [])
          (fun _ => []) [].

(** Sockets 4 and 5 both about to claim "alice", on an empty registry. *)
Definition race_world : World :=
  mkWorld StdMap.empty
          (fun fd => if (fd =? 4)%Z then [Data "alice"]
                     else if (fd =? 5)%Z then [Data "alice"] else [])
          (fun _ => []) [].

Definition race_threads : list ChatServer.thread :=
  [ChatServer.mkThread 4 example_addr ChatServer.AtRecv;
   ChatServer.mkThread 5 example_addr ChatServer.AtRecv].

End Samples.

(** ** Further code of the repository *)

(** *** [Encryption::toHex] and [Encryption::fromHex] *)

Module EncryptionHex.

Definition hex_chars : string := "0123456789ABCDEF".

(** [hex_chars[i]] *)
Definition hex_char (i : N) : ascii :=
  match get (N.to_nat i) hex_chars with
  | Some c => c
  | None => zero
  end.

Fixpoint toHex (data : string) : string :=
  match data with
  | EmptyString => EmptyString
  | String c rest =>
      String (hex_char (N.shiftr (N_of_ascii c) 4))
        (String (hex_char (N.land (N_of_ascii c) 15)) (toHex rest))
  end.

Definition hex_value (c : ascii) : option Z :=
  let n := nat_of_ascii c in
  if isdigit c then Some (Z.of_nat n - 48)%Z
  else if ((65 <=? n) && (n <=? 70))%nat then Some (Z.of_nat n - 55)%Z
  else if ((97 <=? n) && (n <=? 102))%nat then Some (Z.of_nat n - 87)%Z
  else None.

Fixpoint hex_digits (s : string) (acc : option Z) : option Z :=
  match s with
  | EmptyString => acc
  | String c rest =>
      match hex_value c with
      | Some d =>
          hex_digits rest
            (Some (16 * match acc with Some a => a | None => 0 end + d)%Z)
      | None => acc
      end
  end.

Definition INT_MAX : Z := 2147483647.
Definition INT_MIN : Z := - INT_MAX - 1.

(** [std::stoi(str, nullptr, 16)]: white space, an optional sign, an
    optional "0x" or "0X" when a hexadecimal digit follows it, then the
    longest run of hexadecimal digits. *)
Definition stoi16 (str : string) : exn + Z :=
  let s := skip_space str in
  let (negative, s) :=
    match s with
    | String "-" rest => (true, rest)
    | String "+" rest => (false, rest)
    | _ => (false, s)
    end in
  let s :=
    match s with
    | String "0" (String x (String h rest)) =>
        if (Ascii.eqb x "x" || Ascii.eqb x "X")
           && match hex_value h with Some _ => true | None => false end
        then String h rest
        else s
    | _ => s
    end in
  match hex_digits s None with
  | None => inl invalid_argument
  | Some v =>
      let v := if negative then (- v)%Z else v in
      if (v <? INT_MIN)%Z || (INT_MAX <? v)%Z then inl out_of_range else inr v
  end.

(** [static_cast<char>(n)] *)
Definition to_char (n : Z) : ascii := ascii_of_N (Z.to_N (n mod 256)).

(** The loop of [fromHex]: two characters at a time, the last one alone
    when the length is odd; an exception of [std::stoi] ends it. *)
Fixpoint fromHex (hex : string) : exn + string :=
  match hex with
  | EmptyString => inr EmptyString
  | String a EmptyString =>
      match stoi16 (String a EmptyString) with
      | inl e => inl e
      | inr byte => inr (String (to_char byte) EmptyString)
      end
  | String a (String b rest) =>
      match stoi16 (String a (String b EmptyString)) with
      | inl e => inl e
      | inr byte =>
          match fromHex rest with
          | inl e => inl e
          | inr data => inr (String (to_char byte) data)
          end
      end
  end.

End EncryptionHex.

(** *** The client ([ChatClient], [isBinaryData]) *)

Module ChatClient.

(** [(int) n] for a 32-bit [int]. *)
Definition cast_int (n : Z) : Z := ((n + 2 ^ 31) mod 2 ^ 32 - 2 ^ 31)%Z.

(** The counting loop of [isBinaryData] over [msg[0 .. total-1]]. *)
Fixpoint count_unprintable (total : nat) (msg : string) : Z :=
  match total, msg with
  | S total', String c rest =>
      let n := nat_of_ascii c in
      ((if ((n <? 32) && negb (n =? 10) && negb (n =? 9) && negb (n =? 13))%nat
        then 1 else 0) + count_unprintable total' rest)%Z
  | _, _ => 0%Z
  end.

Definition isBinaryData (msg : string) : bool :=
  if (length msg <? 50)%nat then false
  else
    let total := Z.min (cast_int (Z.of_nat (length msg))) 200 in
    let unprintable := count_unprintable (Z.to_nat total) msg in
    (20 <? Z.quot (unprintable * 100) total)%Z.

(** [s.find_last_of(set)]; [None] is [npos]. *)
Fixpoint find_last_of (s set : string) : option nat :=
  match s with
  | EmptyString => None
  | String c rest =>
      match find_last_of rest set with
      | Some i => Some (S i)
      | None =>
          match index 0 (String c EmptyString) set with
          | Some _ => Some 0%nat
          | None => None
          end
      end
  end.

(** The name sent for a path, as [start] cuts it (client.cpp 303-307). *)
Definition request_filename (filepath : string) : string :=
  match find_last_of filepath "/\" with
  | Some last_slash => ChatServer.substr_from filepath (last_slash + 1)
  | None => filepath
  end.

(** What the "/sendfile" branch of the input loop of [start] does with a
    line (client.cpp 280-311), up to the request: [None] when it prints
    an error and goes on to the next line.  [fileExists] and
    [getFileSize] are what [stat] answers. *)
Definition sendfile_request (fileExists : string -> bool)
    (getFileSize : string -> Z) (input : string) : option (string * Z * string) :=
  let parts := Utils.split input " " in
  if (List.length parts <? 3)%nat then None
  else
    let target_user := nth 1 parts "" in
    let filepath := nth 2 parts "" in
    if negb (fileExists filepath) then None
    else
      let file_size := getFileSize filepath in
      if (file_size <=? 0)%Z || (file_size >? 10 * 1024 * 1024)%Z then None
      else
        let filename := request_filename filepath in
        let request :=
          "/sendfile " ++ target_user ++ " " ++ filename ++ " "
            ++ to_string file_size in
        Some (filepath, file_size, request).

End ChatClient.

(** *** More vocabulary *)

(** [s] without one final [d], when it ends with one. *)
Fixpoint chop (d : ascii) (s : string) : string :=
  match s with
  | EmptyString => EmptyString
  | String c EmptyString => if Ascii.eqb c d then EmptyString else s
  | String c rest => String c (chop d rest)
  end.

(** No character of [s] is [d]. *)
Fixpoint free_of (d : ascii) (s : string) : bool :=
  match s with
  | EmptyString => true
  | String c rest => negb (Ascii.eqb c d) && free_of d rest
  end.

Definition first_char (s : string) : option ascii :=
  match s with
  | EmptyString => None
  | String c _ => Some c
  end.

Fixpoint last_char (s : string) : option ascii :=
  match s with
  | EmptyString => None
  | String c EmptyString => Some c
  | String _ rest => last_char rest
  end.

(** The bytes a socket will deliver before its stream ends or fails:
    what [recv] can still return on it. *)
Fixpoint pending (l : list segment) : string :=
  match l with
  | Data bytes :: rest => if is_empty bytes then "" else bytes ++ pending rest
  | _ => ""
  end.

(** A character [isBinaryData] does not count: not a control character,
    or one of newline, tab, carriage return. *)
Definition printable (c : ascii) : Prop :=
  let n := nat_of_ascii c in (32 <= n \/ n = 10 \/ n = 9 \/ n = 13)%nat.

(** No [close] among the calls of a trace. *)
Definition no_close (tr : list event) : Prop :=
  Forall (fun e => match e with EClose _ => False | _ => True end) tr.

(** [w'] comes from [w] by socket calls none of which is a [close]. *)
Definition extends_open (w w' : World) : Prop :=
  exists tr, trace w' = (trace w ++ tr)%list /\ no_close tr.

(** The world a computation of the thread monad leaves behind. *)
Definition world_of {A} (r : result A) : World :=
  match r with
  | Ret _ w => w
  | Raise _ w => w
  end.

(** *** The client side of a transfer ([sendFileToServer],
    [receiveFileFromServer]) *)

Fixpoint length_substring_bound (n m : nat) (s : string) {struct s}
  : (length (substring n m s) <= m)%nat.
Proof.
  destruct s as [|c s]; destruct n as [|n]; destruct m as [|m]; cbn;
    try apply le_n; try apply Nat.le_0_l.
  - apply le_n_S, (length_substring_bound 0%nat m s).
  - apply (length_substring_bound n 0%nat s).
  - apply (length_substring_bound n (S m) s).
Qed.

Module FileTransferClient.

Import FileTransferHandler.

(** The read-and-send loop of [sendFileToServer] over what is left of
    the file: [Some total_sent] when the file is exhausted, [None] when
    a [send] fails.  [file.read] delivers [CHUNK_SIZE] bytes, or what is
    left at the end of the file. *)
Equations? sendFile_loop (server_socket : socket) (left : string)
    (total_sent : Z) (w : World) : option Z * World
  by wf (length left) lt :=
sendFile_loop server_socket EmptyString total_sent w := (Some total_sent, w);
sendFile_loop server_socket (String c s) total_sent w
  with send server_socket
            (substring 0 (Z.to_nat CHUNK_SIZE) (String c s)) w := {
  | (bytes_sent, w1) with Z_le_dec bytes_sent 0 := {
    | left _ => (None, w1)
    | right _ =>
        sendFile_loop server_socket
          (substring (Z.to_nat CHUNK_SIZE)
                     (length (String c s) - Z.to_nat CHUNK_SIZE) (String c s))
          (total_sent + bytes_sent)%Z w1 } }.
Proof.
  match goal with
  | |- (length (substring ?a ?b ?x) < _)%nat =>
      pose proof (length_substring_bound a b x)
  end.
  lia.
Qed.

(** [sendFileToServer]; [fs filename] is the content of the file, [None]
    when it cannot be opened. *)
Definition sendFileToServer (fs : string -> option string)
    (server_socket : socket) (filename : string) (file_size : Z) (w : World)
  : bool * World :=
  match fs filename with
  | None => (false, w)
  | Some content =>
      match sendFile_loop server_socket content 0 w with
      | (None, w') => (false, w')
      | (Some total_sent, w') =>
          if negb (total_sent =? file_size)%Z then (false, w') else (true, w')
      end
  end.

(** The loop of [receiveFileFromServer]; [written] is what has gone to
    the output file, [disk] answers the successive writes ([false]: the
    stream is in a failed state after the write; exhausted: writes
    succeed). *)
Equations? receive_loop (server_socket : socket) (file_size total_received : Z)
    (written : string) (disk : list bool) (w : World)
  : (option Z * string) * World
  by wf (Z.to_nat (file_size - total_received)) lt :=
receive_loop server_socket file_size total_received written disk w
  with Z_lt_dec total_received file_size := {
  | right _ => ((Some total_received, written), w)
  | left _
    with recv server_socket
              (Z.min (file_size - total_received) CHUNK_SIZE) w := {
    | ((bytes_received, buffer), w1) with Z_le_dec bytes_received 0 := {
      | left _ => ((None, written), w1)
      | right _ with disk := {
        | false :: _ => ((None, written), w1)
        | disk' =>
            receive_loop server_socket file_size
              (total_received + bytes_received)%Z (written ++ buffer)
              (tl disk') w1 } } } }.
Proof.
  all: lia.
Qed.

(** [receiveFileFromServer]; [creatable] says whether the output file
    can be opened.  The result carries what was written to it. *)
Definition receiveFileFromServer (creatable : bool) (disk : list bool)
    (server_socket : socket) (sender filename : string) (file_size : Z)
    (w : World) : (bool * string) * World :=
  if negb creatable then ((false, ""), w)
  else
    match receive_loop server_socket file_size 0 "" disk w with
    | ((None, written), w') => ((false, written), w')
    | ((Some total_received, written), w') =>
        if negb (total_received =? file_size)%Z then ((false, written), w')
        else ((true, written), w')
    end.

End FileTransferClient.

(** ** Strings *)

Lemma append_nil_r (s : string) : s ++ "" = s.
Proof. induction s as [|c s IH]; simpl; [reflexivity | now rewrite IH]. Qed.

Lemma append_assoc (a b c : string) : (a ++ b) ++ c = a ++ (b ++ c).
Proof. induction a as [|x a IH]; simpl; [reflexivity | now rewrite IH]. Qed.

Lemma length_append (a b : string) : length (a ++ b) = (length a + length b)%nat.
Proof. induction a as [|x a IH]; simpl; [reflexivity | now rewrite IH]. Qed.

Lemma is_empty_true (s : string) : is_empty s = true <-> s = "".
Proof. destruct s; simpl; split; congruence. Qed.

Lemma is_empty_append (a b : string) :
  is_empty (a ++ b) = is_empty a && is_empty b.
Proof. destruct a; reflexivity. Qed.

Lemma substring_all (s : string) (n : nat) :
  (length s <= n)%nat -> substring 0 n s = s.
Proof.
  revert n; induction s as [|c s IH]; intros [|n] H; simpl in *;
    try reflexivity; try lia.
  now rewrite IH by lia.
Qed.

Lemma substring_none (s : string) (n : nat) :
  (length s <= n)%nat -> substring n (length s - n) s = "".
Proof.
  revert n; induction s as [|c s IH]; intros [|n] H; simpl in *;
    try reflexivity; try lia.
  apply IH; lia.
Qed.

(** ** The ordered map *)

Module StdMapFacts.
Import StdMap.

Section WithValue.
Context {V : Type}.
Implicit Types (m : StdMap.t V) (k : string) (v : V).

Lemma compare_refl k : String_as_OT.compare k k = Eq.
Proof.
  destruct (String_as_OT.compare_spec k k) as [_|H|H]; [reflexivity | |];
    exfalso; exact (StrictOrder_Irreflexive k H).
Qed.

Lemma compare_Eq k k' : String_as_OT.compare k k' = Eq -> k = k'.
Proof.
  destruct (String_as_OT.compare_spec k k'); congruence.
Qed.

Lemma compare_Lt k k' : String_as_OT.lt k k' -> String_as_OT.compare k k' = Lt.
Proof. exact (fun H => H). Qed.

Lemma compare_Gt k k' : String_as_OT.compare k k' = Gt -> String_as_OT.lt k' k.
Proof.
  destruct (String_as_OT.compare_spec k k'); congruence.
Qed.

Lemma ordered_tail k v m : ordered ((k, v) :: m) -> ordered m.
Proof. unfold ordered; simpl; intros H; now inversion H. Qed.

Lemma ordered_head k v k' v' m :
  ordered ((k, v) :: (k', v') :: m) -> String_as_OT.lt k k'.
Proof.
  unfold ordered; simpl; intros H; inversion H as [|? ? _ Hd]; subst.
  now inversion Hd.
Qed.

Lemma find_assign_same k v m : find k (assign k v m) = Some v.
Proof.
  induction m as [|[k' v'] m IH]; simpl.
  - now rewrite compare_refl.
  - destruct (String_as_OT.compare k k') eqn:E; simpl.
    + now rewrite compare_refl.
    + now rewrite compare_refl.
    + now rewrite E.
Qed.

Lemma find_None_erase k m : find k m = None -> erase k m = m.
Proof.
  induction m as [|[k' v'] m IH]; simpl; [reflexivity|].
  destruct (String_as_OT.compare k k'); intros H;
    [discriminate | reflexivity | now rewrite IH].
Qed.

Lemma find_erase_same k m : ordered m -> find k (erase k m) = None.
Proof.
  induction m as [|[k' v'] m IH]; simpl; intros Hm; [reflexivity|].
  destruct (String_as_OT.compare k k') eqn:E.
  - apply compare_Eq in E; subst k'.
    destruct m as [|[k2 v2] m]; simpl; [reflexivity|].
    now rewrite (compare_Lt _ _ (ordered_head _ _ _ _ _ Hm)).
  - simpl; now rewrite E.
  - simpl; rewrite E; apply IH; eapply ordered_tail; eassumption.
Qed.

Lemma erase_erase k m : ordered m -> erase k (erase k m) = erase k m.
Proof.
  intros Hm; apply find_None_erase, find_erase_same, Hm.
Qed.

Lemma hdrel_assign k v k0 m :
  String_as_OT.lt k0 k -> HdRel String_as_OT.lt k0 (keys m) ->
  HdRel String_as_OT.lt k0 (keys (assign k v m)).
Proof.
  destruct m as [|[k' v'] m]; simpl; intros Hk Hd; [now constructor|].
  destruct (String_as_OT.compare k k'); simpl; constructor;
    solve [assumption | now inversion Hd].
Qed.

Lemma ordered_assign k v m : ordered m -> ordered (assign k v m).
Proof.
  unfold ordered.
  induction m as [|[k' v'] m IH]; simpl; intros Hm.
  - repeat constructor.
  - inversion Hm as [|? ? Hs Hd]; subst.
    destruct (String_as_OT.compare k k') eqn:E; simpl.
    + apply compare_Eq in E; subst k'. now constructor.
    + constructor; [exact Hm | constructor; exact E].
    + constructor; [now apply IH|].
      apply hdrel_assign; [now apply compare_Gt | assumption].
Qed.

Lemma hdrel_erase k k0 m :
  Sorted String_as_OT.lt (keys m) -> HdRel String_as_OT.lt k0 (keys m) ->
  HdRel String_as_OT.lt k0 (keys (erase k m)).
Proof.
  destruct m as [|[k' v'] m]; simpl; intros Hs Hd; [constructor|].
  destruct (String_as_OT.compare k k'); simpl; try assumption.
  - inversion Hs as [|? ? Hs' Hd']; subst.
    destruct m as [|[k2 v2] m]; simpl in *; constructor.
    inversion Hd; inversion Hd'; subst.
    etransitivity; eassumption.
  - constructor. now inversion Hd.
Qed.

Lemma ordered_erase k m : ordered m -> ordered (erase k m).
Proof.
  unfold ordered.
  induction m as [|[k' v'] m IH]; simpl; intros Hm; [constructor|].
  inversion Hm as [|? ? Hs Hd]; subst.
  destruct (String_as_OT.compare k k'); simpl; try assumption.
  constructor; [now apply IH | now apply hdrel_erase].
Qed.

Lemma in_keys_assign k v k0 m :
  In k0 (keys (assign k v m)) -> k0 = k \/ In k0 (keys m).
Proof.
  induction m as [|[k' v'] m IH]; simpl.
  - intuition.
  - destruct (String_as_OT.compare k k') eqn:E; simpl; intuition.
Qed.

Lemma in_keys_erase k k0 m : In k0 (keys (erase k m)) -> In k0 (keys m).
Proof.
  induction m as [|[k' v'] m IH]; simpl; [easy|].
  destruct (String_as_OT.compare k k'); simpl; intuition.
Qed.

End WithValue.
End StdMapFacts.

(** ** The registry *)

Section Registry.
Import StdMap StdMapFacts.

Lemma valid_username_nonempty (u : string) :
  isValidUsername u = true -> is_empty u = false.
Proof.
  unfold isValidUsername; destruct (is_empty u); simpl; congruence.
Qed.

Lemma reachable_ordered (m : clients_map) : reachable m -> ordered m.
Proof.
  induction 1.
  - constructor.
  - now apply ordered_assign.
  - now apply ordered_erase.
Qed.

Lemma reachable_keys_valid (m : clients_map) :
  reachable m -> forall k, In k (keys m) -> isValidUsername k = true.
Proof.
  induction 1 as [|u c m Hm IH Hu|u m Hm IH]; intros k Hk.
  - destruct Hk.
  - apply in_keys_assign in Hk as [->|Hk]; auto.
  - apply in_keys_erase in Hk; auto.
Qed.

Lemma keys_strongly_sorted (m : clients_map) :
  ordered m -> StronglySorted String_as_OT.lt (keys m).
Proof.
  apply Sorted_StronglySorted.
  intros a b c; apply (@StrictOrder_Transitive _ _ String_as_OT.lt_strorder).
Qed.

Lemma find_Some_in_keys (k : string) (m : clients_map) (c : ClientInfo) :
  find k m = Some c -> In k (keys m).
Proof.
  induction m as [|[k' v'] m IH]; simpl; [discriminate|].
  destruct (String_as_OT.compare k k') eqn:E; intros H.
  - left; symmetry; now apply compare_Eq.
  - discriminate.
  - right; now apply IH.
Qed.

Lemma in_keys_find (k : string) (m : clients_map) :
  ordered m -> In k (keys m) -> find k m <> None.
Proof.
  intros Hm; apply keys_strongly_sorted in Hm.
  induction m as [|[k' v'] m IH]; simpl in *; [easy|].
  apply StronglySorted_inv in Hm as [Hm Hall].
  intros [->|Hk].
  - now rewrite compare_refl.
  - rewrite Forall_forall in Hall; specialize (Hall k Hk).
    destruct (String_as_OT.compare_spec k k') as [->|Hlt|Hgt].
    + congruence.
    + exfalso; apply (StrictOrder_Irreflexive k); etransitivity; eassumption.
    + now apply IH.
Qed.

Lemma concat_cons_acc (acc k : string) (ks : list string) :
  concat ", " ((acc ++ ", " ++ k) :: ks) = acc ++ ", " ++ concat ", " (k :: ks).
Proof.
  destruct ks as [|x xs]; [reflexivity|].
  cbn [concat]. now rewrite !append_assoc.
Qed.

Lemma getActiveUsers_loop_acc (m : clients_map) (acc : string) :
  is_empty acc = false ->
  getActiveUsers_loop m acc = concat ", " (acc :: keys m).
Proof.
  revert acc; induction m as [|[k c] m IH]; intros acc Hacc.
  - reflexivity.
  - cbn [getActiveUsers_loop keys map fst]. rewrite Hacc; cbn [negb].
    rewrite IH.
    + rewrite append_assoc. apply concat_cons_acc.
    + rewrite !is_empty_append, Hacc; reflexivity.
Qed.

Lemma concat_nonempty (k : string) (ks : list string) :
  is_empty k = false -> is_empty (concat ", " (k :: ks)) = false.
Proof.
  intros Hk; destruct ks; cbn [concat]; [assumption|].
  now rewrite is_empty_append, Hk.
Qed.

(** C9. [deregisterClient] is idempotent: on every registry (a
    [std::map], keys in ascending order) a second [deregisterClient x]
    changes nothing, and [deregisterClient x] leaves a registry without
    [x] as it is. *)
Theorem deregister_idempotent (x : string) (w : World) :
  ordered (clients w) ->
  ChatServer.deregisterClient x (ChatServer.deregisterClient x w)
    = ChatServer.deregisterClient x w
  /\ (find x (clients w) = None -> ChatServer.deregisterClient x w = w).
Proof.
  intros Hm; unfold ChatServer.deregisterClient, set_clients; simpl; split.
  - now rewrite erase_erase.
  - intros Hx; rewrite find_None_erase by assumption. now destruct w.
Qed.

(** C8 (as amended). On a registry the server can build,
    [getActiveUsers] lists exactly the registered identities in strictly
    ascending byte order, joined by ", "; on the empty registry it
    returns the sentinel "No users online". *)
Theorem getActiveUsers_sorted_with_sentinel (m : clients_map) :
  reachable m ->
  StronglySorted String_as_OT.lt (keys m)
  /\ (forall k, In k (keys m) <-> find k m <> None)
  /\ getActiveUsers m =
       match keys m with
       | [] => "No users online"
       | ks => concat ", " ks
       end.
Proof.
  intros Hr. pose proof (reachable_ordered m Hr) as Hm.
  split; [now apply keys_strongly_sorted|]. split.
  - intros k; split; [now apply in_keys_find|].
    destruct (find k m) eqn:E; [intros _; eapply find_Some_in_keys; eassumption|congruence].
  - unfold getActiveUsers. destruct m as [|[k c] m]; [reflexivity|].
    assert (Hk : is_empty k = false).
    { apply valid_username_nonempty, (reachable_keys_valid _ Hr); now left. }
    cbn [getActiveUsers_loop keys map fst]. cbn [is_empty negb append].
    rewrite getActiveUsers_loop_acc by assumption.
    now rewrite concat_nonempty.
Qed.

End Registry.

(** ** Trimming and the identity rule *)

Section Trim.
Import Utils.


Lemma substring_0_0 (s : string) : substring 0 0 s = "".
Proof. now destruct s. Qed.

Lemma trim_space (r : string) : trim (String " " r) = trim r.
Proof.
  unfold trim; cbn [find_first_not_of find_last_not_of Ascii.eqb Bool.eqb].
  destruct (find_first_not_of r " ") as [i|]; cbn [option_map]; [|reflexivity].
  destruct (find_last_not_of r " ") as [j|]; reflexivity.
Qed.

Lemma trim_nonspace (a : ascii) (r : string) :
  Ascii.eqb a " " = false -> trim (String a r) = String a (rtrim r).
Proof.
  intros Ha; unfold trim, rtrim; cbn [find_first_not_of find_last_not_of].
  rewrite Ha. destruct (find_last_not_of r " ") as [j|].
  - replace (S j - 0 + 1)%nat with (S (S j)) by lia. reflexivity.
  - cbn. now rewrite substring_0_0.
Qed.

Lemma find_last_None_spaces (r : string) :
  find_last_not_of r " " = None -> r = spaces (length r).
Proof.
  induction r as [|a r IH]; cbn; [reflexivity|].
  destruct (find_last_not_of r " "); [discriminate|].
  destruct (Ascii.eqb_spec a " "); [|discriminate].
  intros _; subst a. now rewrite <- IH.
Qed.

Lemma rtrim_cons (a : ascii) (r : string) :
  rtrim (String a r) =
    match find_last_not_of r " " with
    | Some _ => String a (rtrim r)
    | None => if Ascii.eqb a " " then "" else String a ""
    end.
Proof.
  unfold rtrim; cbn [find_last_not_of].
  destruct (find_last_not_of r " ") as [j|]; [reflexivity|].
  destruct (Ascii.eqb a " "); [reflexivity|]. cbn. now rewrite substring_0_0.
Qed.

Lemma rtrim_decompose (r : string) : exists b, r = rtrim r ++ spaces b.
Proof.
  induction r as [|a r [b IH]]; [now exists 0%nat|].
  rewrite rtrim_cons. destruct (find_last_not_of r " ") eqn:E.
  - exists b. cbn. now rewrite <- IH.
  - apply find_last_None_spaces in E.
    destruct (Ascii.eqb_spec a " ") as [->|_].
    + exists (S (length r)). cbn. now rewrite <- E.
    + exists (length r). cbn. now rewrite <- E.
Qed.

(** [trim] removes spaces only: what it drops on either side is a run of
    the character 0x20. *)
Lemma trim_decompose (s : string) :
  exists a b, s = spaces a ++ trim s ++ spaces b.
Proof.
  induction s as [|c s (a & b & IH)]; [now exists 0%nat, 0%nat|].
  destruct (Ascii.eqb_spec c " ") as [->|Hc].
  - exists (S a), b. rewrite trim_space. cbn. now rewrite <- IH.
  - apply Ascii.eqb_neq in Hc. rewrite trim_nonspace by assumption.
    destruct (rtrim_decompose s) as [b' Hb]. exists 0%nat, b'. cbn.
    now rewrite <- Hb.
Qed.

Lemma find_last_snoc (r : string) (c : ascii) :
  Ascii.eqb c " " = false ->
  find_last_not_of (r ++ String c "") " " = Some (length r).
Proof.
  intros Hc; induction r as [|a r IH]; cbn.
  - now rewrite Hc.
  - now rewrite IH.
Qed.

(** A string that neither starts nor ends with a space is left alone. *)
Lemma trim_fixed (a c : ascii) (r : string) :
  Ascii.eqb a " " = false -> Ascii.eqb c " " = false ->
  trim (String a (r ++ String c "")) = String a (r ++ String c "").
Proof.
  intros Ha Hc. rewrite trim_nonspace by assumption. f_equal.
  unfold rtrim. rewrite find_last_snoc by assumption.
  apply substring_all. rewrite length_append; cbn; lia.
Qed.


Lemma username_chars_ok_cons (c : ascii) (s : string) :
  username_chars_ok (String c s) = allowed c && username_chars_ok s.
Proof.
  unfold allowed; cbn [username_chars_ok].
  destruct (isalnum c), (Ascii.eqb c "_"), (Ascii.eqb c "-"); reflexivity.
Qed.

Lemma username_chars_ok_append (u v : string) :
  username_chars_ok (u ++ v) = username_chars_ok u && username_chars_ok v.
Proof.
  induction u as [|c u IH]; [reflexivity|].
  cbn [append]. rewrite !username_chars_ok_cons, IH. now rewrite andb_assoc.
Qed.

Lemma allowed_spec (c : ascii) : allowed c = true <-> identity_char c.
Proof.
  unfold allowed, identity_char, isalnum.
  rewrite !orb_true_iff, !andb_true_iff, !Nat.leb_le, !Ascii.eqb_eq. tauto.
Qed.

Lemma username_chars_ok_spec (s : string) :
  username_chars_ok s = true <-> Forall identity_char (list_ascii_of_string s).
Proof.
  induction s as [|c s IH]; cbn [list_ascii_of_string].
  - split; [constructor | reflexivity].
  - rewrite username_chars_ok_cons, andb_true_iff, allowed_spec, IH.
    split; [intros []; now constructor | intros H; now inversion H].
Qed.

(** [isValidUsername] is the rule of the data model: 1 to 20 characters,
    each a letter, a digit, '_' or '-'. *)
Lemma isValidUsername_spec (u : string) :
  isValidUsername u = true <->
  (1 <= length u <= 20)%nat /\ Forall identity_char (list_ascii_of_string u).
Proof.
  unfold isValidUsername. rewrite <- username_chars_ok_spec.
  destruct u as [|c u]; cbn [is_empty orb length].
  - split; [discriminate | lia].
  - destruct (Nat.ltb_spec 20 (S (length u))); split; try discriminate;
      try lia; intuition lia.
Qed.

Lemma c_str_allowed (u v : string) :
  username_chars_ok u = true -> c_str (u ++ v) = u ++ c_str v.
Proof.
  induction u as [|c u IH]; [reflexivity|].
  rewrite username_chars_ok_cons, andb_true_iff; intros [Hc Hu].
  cbn [append c_str].
  destruct (Ascii.eqb_spec c zero) as [->|_]; [discriminate|].
  now rewrite IH.
Qed.

End Trim.

(** ** The router *)

Section Router.
Import ChatServer.
Local Open Scope Z_scope.

Lemma trace_send_ (fd : socket) (data : string) (w : World) :
  exists r, trace (send_ fd data w) = (trace w ++ [ESend fd data r])%list.
Proof.
  unfold send_, send. destruct (outbound w fd); eexists; reflexivity.
Qed.

Lemma clients_send_ (fd : socket) (data : string) (w : World) :
  clients (send_ fd data w) = clients w.
Proof. unfold send_, send. now destruct (outbound w fd). Qed.

Lemma inbound_send_ (fd : socket) (data : string) (w : World) :
  inbound (send_ fd data w) = inbound w.
Proof. unfold send_, send. now destruct (outbound w fd). Qed.

Lemma sends_app (tr tr' : list event) : sends (tr ++ tr') = (sends tr ++ sends tr')%list.
Proof.
  induction tr as [|[] tr IH]; cbn; [reflexivity| | |]; now rewrite ?IH.
Qed.

Lemma starts_with_sendfile (message : string) :
  found_at_0 (find message "/sendfile" 0) = true ->
  exists rest, message = "/sendfile" ++ rest.
Proof.
  unfold find, found_at_0.
  destruct (index 0 "/sendfile" message) as [[|n]|] eqn:E; try discriminate.
  intros _. apply index_correct1 in E. cbn [length] in E.
  do 9 (destruct message as [|? message]; [discriminate E|];
        cbn [substring] in E; injection E as <- E).
  now exists message.
Qed.

(** A line that starts with "/sendfile" takes the third branch of
    [processMessage]. *)
Lemma processMessage_sendfile (message sender_username : string)
    (sender_socket : socket) :
  found_at_0 (find message "/sendfile" 0) = true ->
  processMessage message sender_username sender_socket =
    let parts := Utils.split message " " in
    if (List.length parts <? 4)%nat then
      act (send_ sender_socket
             (maybe_encrypt "Usage: /sendfile <username> <filename> <file_size>"))
    else
      match stol (nth 3 parts "") with
      | inl e => raise e
      | inr file_size =>
          if (file_size <=? 0) || (file_size >? 10 * 1024 * 1024) then
            act (send_ sender_socket
                   (maybe_encrypt "ERROR: Invalid file size (max 10MB)"))
          else
            act (handleFileTransfer sender_socket sender_username
                   (nth 1 parts "") (nth 2 parts "") file_size)
      end.
Proof.
  intros H. unfold processMessage. rewrite H.
  destruct (starts_with_sendfile _ H) as [rest ->].
  cbn [append String.eqb Ascii.eqb Bool.eqb].
  replace (found_at_0 _) with false; [reflexivity|].
  unfold find. cbn [index prefix].
  destruct (Ascii.ascii_dec "@" "/"); [discriminate|].
  now destruct (index 0 "@" _).
Qed.

(** C6. When the recipient's name is not in the registry,
    [handleFileTransfer] sends the "not online" error to the sender and
    nothing else: no offer, no prepare signal, no file byte, and nothing
    is read from the sender. *)
Theorem offline_recipient_fails_immediately
    (sender_socket : socket) (sender_username recipient_username filename : string)
    (file_size : Z) (w : World) :
  StdMap.find recipient_username (clients w) = None ->
  let w' := handleFileTransfer sender_socket sender_username
              recipient_username filename file_size w in
  (exists r, trace w' = (trace w ++
     [ESend sender_socket
            ("ERROR: User '" ++ recipient_username ++ "' is not online")%string r])%list)
  /\ sends (trace w') = (sends (trace w) ++
       [(sender_socket,
         ("ERROR: User '" ++ recipient_username ++ "' is not online")%string)])%list
  /\ inbound w' = inbound w
  /\ clients w' = clients w.
Proof.
  intros Hfind w'. subst w'. unfold handleFileTransfer. rewrite Hfind.
  cbn [Z.eqb Pos.eqb].
  destruct (trace_send_ sender_socket
              ("ERROR: User '" ++ recipient_username ++ "' is not online") w)
    as [r Hr].
  repeat split.
  - now exists r.
  - rewrite Hr, sends_app. reflexivity.
  - apply inbound_send_.
  - apply clients_send_.
Qed.

(** X27. A "/sendfile" line whose size field [std::stol] reads as a
    [long] that is zero, negative or above 10_485_760 gets the size
    error on the sender's socket and nothing else is sent: the offer to
    the recipient is never reached. *)
Theorem out_of_range_size_rejected_before_offer
    (message sender_username : string) (sender_socket : socket)
    (file_size : Z) (w : World) :
  found_at_0 (find message "/sendfile" 0) = true ->
  (4 <= List.length (Utils.split message " "))%nat ->
  stol (nth 3 (Utils.split message " ") "") = inr file_size ->
  file_size <= 0 \/ 10485760 < file_size ->
  exists w',
    processMessage message sender_username sender_socket w = Ret tt w'
    /\ sends (trace w') = (sends (trace w) ++
         [(sender_socket, "ERROR: Invalid file size (max 10MB)")])%list
    /\ inbound w' = inbound w
    /\ clients w' = clients w.
Proof.
  intros Hcmd Harity Hsize Hrange.
  rewrite processMessage_sendfile by assumption. cbv zeta.
  destruct (Nat.ltb_spec (List.length (Utils.split message " ")) 4); [lia|].
  rewrite Hsize.
  replace ((file_size <=? 0) || (file_size >? 10 * 1024 * 1024)) with true
    by (symmetry; apply orb_true_iff; lia).
  unfold act, maybe_encrypt; cbn [Encryption.isEnabled].
  eexists; split; [reflexivity|].
  destruct (trace_send_ sender_socket "ERROR: Invalid file size (max 10MB)" w)
    as [r Hr].
  rewrite Hr, sends_app, inbound_send_, clients_send_. auto.
Qed.

(** The two well-behaved rejections of a "/sendfile" line: too few
    fields gets the usage text. *)
Lemma short_sendfile_gets_usage
    (message sender_username : string) (sender_socket : socket) (w : World) :
  found_at_0 (find message "/sendfile" 0) = true ->
  (List.length (Utils.split message " ") < 4)%nat ->
  exists w',
    processMessage message sender_username sender_socket w = Ret tt w'
    /\ sends (trace w') = (sends (trace w) ++
         [(sender_socket, "Usage: /sendfile <username> <filename> <file_size>")])%list
    /\ clients w' = clients w.
Proof.
  intros Hcmd Harity.
  rewrite processMessage_sendfile by assumption. cbv zeta.
  destruct (Nat.ltb_spec (List.length (Utils.split message " ")) 4); [|lia].
  unfold act, maybe_encrypt; cbn [Encryption.isEnabled].
  eexists; split; [reflexivity|].
  destruct (trace_send_ sender_socket
              "Usage: /sendfile <username> <filename> <file_size>" w) as [r Hr].
  rewrite Hr, sends_app, clients_send_. auto.
Qed.

(** A size field that [std::stol] refuses makes [processMessage] leave by
    the exception, before anything is sent. *)
Lemma unparsable_size_raises
    (message sender_username : string) (sender_socket : socket) (e : exn)
    (w : World) :
  found_at_0 (find message "/sendfile" 0) = true ->
  (4 <= List.length (Utils.split message " "))%nat ->
  stol (nth 3 (Utils.split message " ") "") = inl e ->
  processMessage message sender_username sender_socket w = Raise e w.
Proof.
  intros Hcmd Harity Hsize.
  rewrite processMessage_sendfile by assumption. cbv zeta.
  destruct (Nat.ltb_spec (List.length (Utils.split message " ")) 4); [lia|].
  now rewrite Hsize.
Qed.

End Router.

(** ** The file relay *)

Section Relay.
Import FileTransferHandler.
Local Open Scope Z_scope.

Lemma length_substring_le (n m : nat) (s : string) :
  (length (substring n m s) <= m)%nat.
Proof.
  revert n m; induction s as [|c s IH]; intros [|n] [|m]; cbn; try lia.
  - specialize (IH 0%nat m); lia.
  - apply IH.
  - apply IH.
Qed.

Lemma recv_spec (fd : socket) (n : Z) (w : World) :
  0 <= n ->
  let '((ret, data), w') := recv fd n w in
  trace w' = (trace w ++ [ERecv fd n ret data])%list
  /\ clients w' = clients w
  /\ ret <= n /\ (0 < ret -> ret = strlen data).
Proof.
  intros Hn. unfold recv.
  destruct (inbound w fd) as [|[bytes|] rest]; cbn; repeat split; try lia.
  unfold strlen. pose proof (length_substring_le 0 (Z.to_nat n) bytes). lia.
Qed.

Lemma send_spec (fd : socket) (data : string) (w : World) :
  let '(ret, w') := send fd data w in
  trace w' = (trace w ++ [ESend fd data ret])%list /\ clients w' = clients w.
Proof.
  unfold send. destruct (outbound w fd); cbn; auto.
Qed.


(** Bring in what the calls recorded in the context did. *)
Ltac relay_calls :=
  repeat match goal with
  | H : recv ?fd ?n ?w = _ |- _ =>
      let Hr := fresh "Hrecv" in
      pose proof (recv_spec fd n w) as Hr; rewrite H in Hr;
      destruct Hr as (? & ? & ? & ?); [unfold CHUNK_SIZE; lia|]; clear H
  | H : send ?fd ?data ?w = _ |- _ =>
      let Hs := fresh "Hsend" in
      pose proof (send_spec fd data w) as Hs; rewrite H in Hs;
      destruct Hs as (? & ?); clear H
  | H : Z_le_dec _ _ = _ |- _ => clear H
  | H : Z_lt_dec _ _ = _ |- _ => clear H
  end.

Ltac trace_chain :=
  repeat match goal with
  | H : trace _ = _ |- _ => rewrite H; clear H
  end;
  rewrite <- ?app_assoc; reflexivity.

Ltac relay_tests :=
  repeat match goal with
  | |- context [(?a <? ?b)%Z] => destruct (Z.ltb_spec a b); try lia
  | |- context [(?a <=? ?b)%Z] => destruct (Z.leb_spec a b); try lia
  end.

Lemma stream_loop_post (s r : socket) (file_size total : Z) (w : World) :
  total <= file_size ->
  relay_post s r file_size total w (stream_loop s r file_size total w).
Proof.
  funelim (stream_loop s r file_size total w); intros Hle;
    try rewrite <- Heqcall; clear Heqcall; relay_calls.
  - (* the loop test fails *)
    exists []. rewrite app_nil_r. cbn. repeat split; try lia; try constructor.
  - (* the read fails *)
    exists [ERecv sender_socket
              (Z.min (file_size - total_transferred) CHUNK_SIZE)
              bytes_received buffer].
    cbn. unfold failed_call. cbn. relay_tests.
    repeat split; try assumption; try lia; try discriminate.
    repeat constructor; unfold CHUNK_SIZE in *; lia.
  - (* the write fails *)
    exists [ERecv sender_socket
              (Z.min (file_size - total_transferred) CHUNK_SIZE)
              bytes_received buffer;
            ESend recipient_socket buffer bytes_sent].
    cbn. unfold failed_call. cbn. relay_tests.
    repeat split; try lia; try discriminate.
    + trace_chain.
    + congruence.
    + repeat constructor; unfold CHUNK_SIZE in *; lia.
  - (* one chunk relayed, the loop goes on *)
    specialize (H ltac:(lia)). unfold relay_post in *.
    destruct (stream_loop sender_socket recipient_socket file_size
                (total_transferred + bytes_received) w2) as [[success total'] w'].
    destruct H as (tr & Htr & Hcl & Hcalls & Hchunks & Hmoved & Hbound & Hsucc & Hdone & Hfail).
    exists (ERecv sender_socket
              (Z.min (file_size - total_transferred) CHUNK_SIZE)
              bytes_received buffer
            :: ESend recipient_socket buffer bytes_sent :: tr).
    cbn. unfold failed_call at 1 2. cbn. relay_tests.
    cbn. repeat split; try lia; try assumption.
    + trace_chain.
    + congruence.
    + repeat constructor; try assumption; unfold CHUNK_SIZE in *; lia.
    + now rewrite Hchunks.
Qed.

Lemma no_failed_call_no_failed_write (tr : list event) :
  existsb failed_call tr = false -> existsb failed_write tr = false.
Proof.
  induction tr as [|e tr IH]; cbn; [reflexivity|].
  unfold failed_call at 1.
  rewrite !orb_false_iff. intros [[_ ->] H]. auto.
Qed.

(** C4. [streamFileData] on a declared size that is not negative: every
    read asks the sender for at most 8192 bytes, each chunk read is
    handed to the recipient as it came, [bytesMoved] counts the bytes
    handed on and never passes the declared size; the loop goes on until
    [bytesMoved] is the declared size unless a read or a write returns
    zero or an error, so the result is [true] exactly when no call
    failed, which is exactly when [bytesMoved] equals the declared size
    and no write returned zero or an error; and it is [false], with
    [bytesMoved] below the size, as soon as a read or a write returns
    zero or an error.  The registry is not touched. *)
Theorem relay_outcome (sender_socket recipient_socket : socket)
    (sender_username recipient_username filename : string)
    (file_size : Z) (w : World) :
  0 <= file_size ->
  let '((success, bytesMoved), w') :=
    streamFileData sender_socket recipient_socket
      sender_username recipient_username filename file_size w in
  exists tr,
    trace w' = (trace w ++ tr)%list
    /\ clients w' = clients w
    /\ Forall (relay_call sender_socket recipient_socket) tr
    /\ chunks_out tr = chunks_in tr
    /\ bytesMoved = moved tr
    /\ bytesMoved <= file_size
    /\ success = negb (existsb failed_call tr)
    /\ (success = true <->
        bytesMoved = file_size /\ existsb failed_write tr = false)
    /\ (existsb failed_call tr = true ->
        success = false /\ bytesMoved < file_size).
Proof.
  intros Hsize. unfold streamFileData.
  pose proof (stream_loop_post sender_socket recipient_socket file_size 0 w Hsize)
    as Hpost.
  unfold relay_post in Hpost.
  destruct (stream_loop sender_socket recipient_socket file_size 0 w)
    as [[success bytesMoved] w'].
  destruct Hpost as (tr & Htr & Hcl & Hcalls & Hchunks & Hmoved & Hbound
                     & Hsucc & Hdone & Hfail).
  exists tr. repeat split; try assumption.
  - lia.
  - auto.
  - apply no_failed_call_no_failed_write.
    subst success. now apply negb_true_iff.
  - intros [Hm _]. destruct success; [reflexivity|].
    specialize (Hfail eq_refl). lia.
  - subst success. now apply negb_false_iff.
  - apply Hfail. subst success. now apply negb_false_iff.
Qed.

End Relay.

(** ** Authentication *)

Section Authentication.
Import ChatServer.
Local Open Scope Z_scope.

Lemma trace_close (fd : socket) (w : World) :
  trace (close fd w) = (trace w ++ [EClose fd])%list.
Proof. reflexivity. Qed.

Lemma clients_close (fd : socket) (w : World) : clients (close fd w) = clients w.
Proof. reflexivity. Qed.

Lemma clients_broadcast_loop (m : clients_map) (msg sender : string) (w : World) :
  clients (broadcast_loop m msg sender w) = clients w.
Proof.
  revert w; induction m as [|[name info] m IH]; intros w; cbn; [reflexivity|].
  rewrite IH. destruct (negb (name =? sender)%string); [apply clients_send_|reflexivity].
Qed.

Lemma clients_welcome (fd : socket) (u : string) (w : World) :
  clients (welcome fd u w) = clients w.
Proof.
  unfold welcome, broadcast. now rewrite clients_broadcast_loop, clients_send_.
Qed.

Lemma recv_short_payload (fd : socket) (w : World) (payload : string)
    (rest : list segment) :
  inbound w fd = Data payload :: rest ->
  (length payload <= 4095)%nat ->
  recv fd 4095 w =
    ((strlen payload, payload),
     log (ERecv fd 4095 (strlen payload) payload) (set_inbound fd rest w)).
Proof.
  intros Hin Hlen. unfold recv. rewrite Hin.
  rewrite substring_all, substring_none by lia. reflexivity.
Qed.

Lemma allowed_not_space (a : ascii) : allowed a = true -> Ascii.eqb a " " = false.
Proof.
  intros Ha. destruct (Ascii.eqb_spec a " ") as [->|]; [discriminate Ha|reflexivity].
Qed.

(** C7 (amended). The identity is what [handleClient] makes of the
    first payload received: the buffer read as a C string, up to its
    first NUL, with the spaces at both ends removed.  The connection is
    accepted only if the identity has 1 to 20 characters, all letters,
    digits, '_' or '-', and is not in the registry, and it is then
    registered under it.  Otherwise it gets one message, the
    invalid-username error when the identity breaks the format and the
    already-taken error when it is well formed but registered, nothing
    else is sent, the connection is closed, the registry is unchanged and
    [handleClient] returns without entering the message loop. *)
Theorem authentication_rule (running : nat) (client_socket : socket)
    (client_addr : sockaddr_in) (w w1 : World) (bytes_read : Z)
    (buffer : string) :
  recv client_socket 4095 w = ((bytes_read, buffer), w1) ->
  0 < bytes_read ->
  let identity := Utils.trim (c_str buffer) in
  let well_formed :=
    (1 <= length identity <= 20)%nat
    /\ Forall identity_char (list_ascii_of_string identity) in
  let acceptable :=
    well_formed /\ StdMap.find identity (clients w) = None in
  match authenticate client_socket client_addr w with
  | (Some name, w') =>
      acceptable /\ name = identity
      /\ clients w' =
           StdMap.assign identity (mkClient client_socket identity client_addr)
                         (clients w)
      /\ StdMap.find identity (clients w')
           = Some (mkClient client_socket identity client_addr)
  | (None, w') =>
      ~ acceptable
      /\ clients w' = clients w
      /\ (exists msg r,
            trace w' = (trace w1 ++ [ESend client_socket msg r;
                                     EClose client_socket])%list
            /\ (well_formed ->
                msg = ("ERROR: Username '" ++ identity
                         ++ "' is already taken")%string)
            /\ (~ well_formed ->
                msg = "ERROR: Invalid username. Use only alphanumeric, _, and -"))
      /\ handleClient running client_socket client_addr w = Ret tt w'
  end.
Proof.
  intros Hrecv Hpos identity well_formed acceptable.
  assert (Hwf : well_formed <-> isValidUsername identity = true)
    by (subst well_formed; now rewrite isValidUsername_spec).
  assert (Hacc : acceptable <->
                 isValidUsername identity = true
                 /\ StdMap.find identity (clients w) = None)
    by (subst acceptable; now rewrite Hwf).
  clearbody acceptable well_formed.
  pose proof (recv_spec client_socket 4095 w ltac:(lia)) as Hspec.
  rewrite Hrecv in Hspec. destruct Hspec as (Htr & Hcl & _ & _).
  unfold handleClient, bind, call, authenticate, receive_username.
  rewrite Hrecv. destruct (Z.leb_spec bytes_read 0) as [|_]; [lia|].
  fold identity.
  destruct (isValidUsername identity) eqn:Hvalid.
  - rewrite (valid_username_nonempty _ Hvalid). cbn [orb negb].
    unfold check_duplicate. rewrite Hcl.
    destruct (StdMap.find identity (clients w)) eqn:Hfind.
    + repeat split.
      * rewrite Hacc. intros [_ H]; discriminate.
      * now rewrite clients_close, clients_send_.
      * destruct (trace_send_ client_socket
                    ("ERROR: Username '" ++ identity ++ "' is already taken")%string
                    w1) as [r Hr].
        eexists _, r. split; [|split].
        -- rewrite trace_close, Hr, <- app_assoc. reflexivity.
        -- reflexivity.
        -- intros Hn. exfalso. apply Hn, Hwf. reflexivity.
    + split; [apply Hacc; auto|]. split; [reflexivity|].
      rewrite clients_welcome. unfold registerClient; cbn. rewrite Hcl.
      split; [reflexivity|]. apply StdMapFacts.find_assign_same.
  - rewrite orb_true_r. repeat split.
    + rewrite Hacc. intros [H _]; discriminate.
    + now rewrite clients_close, clients_send_.
    + destruct (trace_send_ client_socket
                  "ERROR: Invalid username. Use only alphanumeric, _, and -" w1)
        as [r Hr].
      eexists _, r. split; [|split].
      * rewrite trace_close, Hr, <- app_assoc. reflexivity.
      * intros Hw. apply Hwf in Hw. discriminate.
      * reflexivity.
Qed.

(** C10. [trim] drops only runs of the space character, so a valid
    identity followed by a tab, a newline or a carriage return reaches
    the format check with that character still attached: the check
    fails, the connection gets the invalid-username error and is closed,
    and nothing is registered. *)
Theorem trailing_whitespace_rejected (running : nat) (client_socket : socket)
    (client_addr : sockaddr_in) (w : World) (u : string) (c : ascii)
    (rest : list segment) :
  isValidUsername u = true ->
  c = ascii_of_nat 9 \/ c = ascii_of_nat 10 \/ c = ascii_of_nat 13 ->
  inbound w client_socket = Data (u ++ String c "") :: rest ->
  let payload := u ++ String c "" in
  (forall s, exists a b, s = spaces a ++ Utils.trim s ++ spaces b)
  /\ Utils.trim payload = payload
  /\ isValidUsername payload = false
  /\ exists w' r,
       handleClient running client_socket client_addr w = Ret tt w'
       /\ trace w' =
            (trace w ++
             [ERecv client_socket 4095 (strlen payload) payload;
              ESend client_socket
                "ERROR: Invalid username. Use only alphanumeric, _, and -" r;
              EClose client_socket])%list
       /\ clients w' = clients w.
Proof.
  intros Hu Hc Hin payload.
  assert (Hp : payload = u ++ String c "") by reflexivity.
  clearbody payload. rewrite <- Hp in Hin.
  assert (Hcs : Ascii.eqb c " " = false /\ allowed c = false /\ Ascii.eqb c zero = false)
    by (destruct Hc as [-> | [-> | ->]]; repeat split; reflexivity).
  destruct Hcs as (Hspace & Hbad & Hnul).
  pose proof Hu as Hspec. apply isValidUsername_spec in Hspec as [Hlen _].
  assert (Hok : username_chars_ok u = true).
  { unfold isValidUsername in Hu.
    destruct (is_empty u || (20 <? length u)%nat); [discriminate|assumption]. }
  assert (Htrim : Utils.trim payload = payload).
  { subst payload. destruct u as [|a r]; [cbn in Hlen; lia|].
    rewrite username_chars_ok_cons, andb_true_iff in Hok.
    apply trim_fixed; [apply allowed_not_space; tauto | assumption]. }
  assert (Hinvalid : isValidUsername payload = false).
  { unfold isValidUsername.
    destruct (is_empty payload || (20 <? length payload)%nat); [reflexivity|].
    subst payload. rewrite username_chars_ok_append, username_chars_ok_cons, Hbad.
    now rewrite andb_false_r. }
  split; [exact trim_decompose|]. split; [assumption|]. split; [assumption|].
  assert (Hcstr : c_str payload = payload).
  { subst payload. rewrite c_str_allowed by assumption. cbn. now rewrite Hnul. }
  assert (Hsize : (length payload <= 4095)%nat).
  { subst payload. rewrite length_append; cbn; lia. }
  unfold handleClient, bind, call, authenticate, receive_username.
  rewrite (recv_short_payload _ _ _ _ Hin Hsize).
  destruct (Z.leb_spec (strlen payload) 0) as [Hle|_].
  { unfold strlen in Hle. subst payload. rewrite length_append in Hle; cbn in Hle; lia. }
  rewrite Hcstr, Htrim, Hinvalid, orb_true_r.
  match goal with
  | |- context [send_ ?fd ?msg ?w0] =>
      destruct (trace_send_ fd msg w0) as [r Hr];
      exists (close fd (send_ fd msg w0)), r
  end.
  split; [reflexivity|]. split.
  - rewrite trace_close, Hr. cbn [trace log set_inbound]. now rewrite <- !app_assoc.
  - now rewrite clients_close, clients_send_.
Qed.

End Authentication.

(** ** Worked sessions *)

Section Sessions.
Import ChatServer.
Local Open Scope Z_scope.

(** The steps of a thread are the phases of [handleClient]: alone, four
    steps are one run of phases 1 and 2. *)
Lemma authenticate_by_steps (fd : socket) (addr : sockaddr_in) (w : World) :
  run_schedule [0; 0; 0; 0]%nat [mkThread fd addr AtRecv] w =
    match authenticate fd addr w with
    | (Some u, w') => ([mkThread fd addr (Active u)], w')
    | (None, w') => ([mkThread fd addr Closed], w')
    end.
Proof.
  unfold authenticate. cbn [run_schedule nth_error thread_step t_pc t_socket t_addr].
  destruct (receive_username fd w) as [[u|] w1];
    cbn [update_nth nth_error thread_step t_pc t_socket t_addr]; [|reflexivity].
  destruct (check_duplicate fd u w1) as [[|] w2];
    cbn [update_nth nth_error thread_step t_pc t_socket t_addr]; reflexivity.
Qed.

(** When the first connection finishes authenticating before the second
    starts, the second is turned away. *)
Lemma one_after_the_other_second_rejected :
  let '(ts, w') :=
    run_schedule [0; 0; 0; 0; 1; 1; 1; 1]%nat race_threads race_world in
  map t_pc ts = [Active "alice"; Closed]
  /\ sends (trace w') =
       [(4, "Welcome alice! Type /list, /quit, @user msg, /sendfile user file");
        (5, "ERROR: Username 'alice' is already taken")]
  /\ clients w' = [("alice", mkClient 4 "alice" example_addr)].
Proof. vm_compute. auto. Qed.

(** C1 (the code departs from it). Two connections claim "alice"; each
    passes the duplicate check before the other has called
    [registerClient].  Both are welcomed and become Active, neither gets
    an error or is closed, and the second [registerClient] overwrites the
    binding of the first. *)
Theorem same_identity_race_both_accepted :
  let '(ts, w') :=
    run_schedule [0; 1; 0; 1; 0; 1; 0; 1]%nat race_threads race_world in
  map t_pc ts = [Active "alice"; Active "alice"]
  /\ sends (trace w') =
       [(4, "Welcome alice! Type /list, /quit, @user msg, /sendfile user file");
        (5, "Welcome alice! Type /list, /quit, @user msg, /sendfile user file")]
  /\ clients w' = [("alice", mkClient 5 "alice" example_addr)].
Proof. vm_compute. auto. Qed.

(** C2 (the code departs from it). The line "/sendfile bob notes.txt abc"
    makes [std::stol] throw; nothing catches, so the exception leaves
    [processMessage] and then the thread function, and the process is
    aborted with every other connection in it. *)
Theorem non_numeric_size_aborts_server (running : nat) :
  (forall sender fd w,
     processMessage "/sendfile bob notes.txt abc" sender fd w
       = Raise invalid_argument w)
  /\ exists w',
       client_thread (S running) 4 example_addr crash_world
         = Aborted invalid_argument w'
       /\ StdMap.keys (clients w') = ["alice"; "bob"]
       /\ sends (trace w') =
            [(4, "Welcome alice! Type /list, /quit, @user msg, /sendfile user file");
             (5, "alice joined the chat!")].
Proof.
  split.
  - intros sender fd w. now apply unparsable_size_raises.
  - eexists. split; [vm_compute; reflexivity|]. split; reflexivity.
Qed.

(** C3 (the code departs from it). A "/sendfile" line with a size field
    that is not a number gets no usage or size error: [processMessage]
    sends nothing and leaves by the exception, and [handleClient] with
    it, so the connection does not stay Active. *)
Theorem non_numeric_size_gets_no_reply (running : nat) (w : World) :
  processMessage "/sendfile bob report.txt ten" "alice" 4 w
    = Raise invalid_argument w
  /\ message_loop (S running) 4 "alice"
       (set_inbound 4 [Data "/sendfile bob report.txt ten"] w)
     = Raise invalid_argument
         (log (ERecv 4 4095 28 "/sendfile bob report.txt ten")
              (set_inbound 4 [] (set_inbound 4 [Data "/sendfile bob report.txt ten"] w))).
Proof.
  split.
  - now apply unparsable_size_raises.
  - reflexivity.
Qed.

(** C7, as stated, fails on a payload with spaces around a free name:
    the payload holds characters outside the set, and the connection is
    accepted, registered and welcomed all the same. *)
Lemma padded_payload_is_accepted :
  inbound padded_world 4 = [Data "  alice  "]
  /\ ~ Forall identity_char (list_ascii_of_string "  alice  ")
  /\ fst (authenticate 4 example_addr padded_world) = Some "alice"
  /\ StdMap.find "alice" (clients (snd (authenticate 4 example_addr padded_world)))
       = Some (mkClient 4 "alice" example_addr)
  /\ sends (trace (snd (authenticate 4 example_addr padded_world))) =
       [(4, "Welcome alice! Type /list, /quit, @user msg, /sendfile user file");
        (5, "alice joined the chat!")].
Proof.
  split; [reflexivity|]. split; [|repeat split; reflexivity].
  intros H. apply Forall_inv in H. unfold identity_char in H. cbn in H.
  destruct H as [H|[H|[H|[H|H]]]]; try lia; discriminate H.
Qed.

(** C8, as stated, fails on the sentinel: the text starts with a
    capital. *)
Lemma sentinel_is_not_lower_case :
  getActiveUsers StdMap.empty <> "no users online".
Proof. discriminate. Qed.

End Sessions.

(** ** Instances *)

Section Instances.
Import ChatServer.
Local Open Scope Z_scope.

Lemma example_registry_reachable : reachable example_registry.
Proof.
  unfold example_registry.
  apply reach_register; [apply reach_register; [apply reach_empty|]|]; reflexivity.
Qed.

Lemma deregister_idempotent_witness :
  StdMap.ordered (clients example_world)
  /\ deregisterClient "bob" (deregisterClient "bob" example_world)
       = deregisterClient "bob" example_world.
Proof.
  assert (H : StdMap.ordered (clients example_world))
    by (repeat constructor).
  split; [exact H | exact (proj1 (deregister_idempotent "bob" example_world H))].
Defined.

Lemma getActiveUsers_sorted_with_sentinel_witness :
  reachable example_registry
  /\ getActiveUsers example_registry = "alice, bob".
Proof.
  split; [exact example_registry_reachable|].
  exact (proj2 (proj2 (getActiveUsers_sorted_with_sentinel example_registry
                         example_registry_reachable))).
Defined.

Lemma offline_recipient_fails_immediately_witness :
  StdMap.find "zed" (clients example_world) = None
  /\ sends (trace (handleFileTransfer 4 "alice" "zed" "f.txt" 10 example_world))
       = [(4, "ERROR: User 'zed' is not online")].
Proof.
  split; [reflexivity|].
  exact (proj1 (proj2 (offline_recipient_fails_immediately
                         4 "alice" "zed" "f.txt" 10 example_world eq_refl))).
Defined.

Lemma out_of_range_size_rejected_before_offer_witness :
  found_at_0 (find "/sendfile bob f.txt 10485761" "/sendfile" 0) = true
  /\ (4 <= List.length (Utils.split "/sendfile bob f.txt 10485761" " "))%nat
  /\ stol (nth 3 (Utils.split "/sendfile bob f.txt 10485761" " ") "")
       = inr 10485761
  /\ (10485761 <= 0 \/ 10485760 < 10485761)
  /\ exists w',
       processMessage "/sendfile bob f.txt 10485761" "alice" 4 example_world
         = Ret tt w'
       /\ sends (trace w') = [(4, "ERROR: Invalid file size (max 10MB)")].
Proof.
  assert (H1 : found_at_0 (find "/sendfile bob f.txt 10485761" "/sendfile" 0) = true)
    by reflexivity.
  assert (H2 : (4 <= List.length (Utils.split "/sendfile bob f.txt 10485761" " "))%nat)
    by (vm_compute; lia).
  assert (H3 : stol (nth 3 (Utils.split "/sendfile bob f.txt 10485761" " ") "")
               = inr 10485761) by reflexivity.
  assert (H4 : 10485761 <= 0 \/ 10485760 < 10485761) by lia.
  repeat split; try assumption.
  destruct (out_of_range_size_rejected_before_offer
              "/sendfile bob f.txt 10485761" "alice" 4 10485761 example_world
              H1 H2 H3 H4) as (w' & Hrun & Hsends & _).
  exists w'. split; assumption.
Defined.

Lemma relay_outcome_witness :
  0 <= 8
  /\ exists tr,
       trace (snd (FileTransferHandler.streamFileData 4 5 "alice" "bob" "f.txt" 8
                     relay_world))
         = (trace relay_world ++ tr)%list
       /\ chunks_out tr = chunks_in tr
       /\ snd (fst (FileTransferHandler.streamFileData 4 5 "alice" "bob" "f.txt" 8
                      relay_world)) = moved tr
       /\ fst (fst (FileTransferHandler.streamFileData 4 5 "alice" "bob" "f.txt" 8
                      relay_world)) = negb (existsb failed_call tr).
Proof.
  split; [lia|].
  pose proof (relay_outcome 4 5 "alice" "bob" "f.txt" 8 relay_world ltac:(lia)) as H.
  destruct (FileTransferHandler.streamFileData 4 5 "alice" "bob" "f.txt" 8 relay_world)
    as [[success bytesMoved] w'].
  destruct H as (tr & Htr & _ & _ & Hchunks & Hmoved & _ & Hsucc & _).
  exists tr. cbn [fst snd]. repeat split; assumption.
Defined.

Lemma authentication_rule_witness :
  recv 4 4095 join_world = ((5, "alice"), snd (recv 4 4095 join_world))
  /\ 0 < 5
  /\ StdMap.find "alice" (clients (snd (authenticate 4 example_addr join_world)))
       = Some (mkClient 4 "alice" example_addr).
Proof.
  split; [reflexivity|]. split; [lia|].
  pose proof (authentication_rule 1 4 example_addr join_world _ 5 "alice"
                eq_refl ltac:(lia)) as H.
  change (authenticate 4 example_addr join_world)
    with (Some "alice", snd (authenticate 4 example_addr join_world)) in H.
  exact (proj2 (proj2 (proj2 H))).
Defined.

Lemma trailing_whitespace_rejected_witness :
  isValidUsername "alice" = true
  /\ inbound newline_world 4 = [Data ("alice" ++ String (ascii_of_nat 10) "")]
  /\ isValidUsername ("alice" ++ String (ascii_of_nat 10) "") = false.
Proof.
  split; [reflexivity|]. split; [reflexivity|].
  exact (proj1 (proj2 (proj2 (trailing_whitespace_rejected
           1 4 example_addr newline_world "alice" (ascii_of_nat 10) []
           eq_refl (or_intror (or_introl eq_refl)) eq_refl)))).
Defined.

End Instances.

(** ** The XOR pass and the hex coding *)

Section Codec.
Import Encryption EncryptionHex.

Lemma lxor_byte (a b : N) : (a < 256 -> b < 256 -> N.lxor a b < 256)%N.
Proof.
  intros Ha Hb.
  destruct (N.eq_dec (N.lxor a b) 0) as [->|Hne]; [reflexivity|].
  change 256%N with (2 ^ 8)%N. apply N.log2_lt_pow2; [lia|].
  pose proof (N.log2_lxor a b) as Hl.
  assert (Hla : (N.log2 a < 8)%N).
  { destruct (N.eq_dec a 0) as [->|]; [reflexivity|].
    apply N.log2_lt_pow2; [lia | exact Ha]. }
  assert (Hlb : (N.log2 b < 8)%N).
  { destruct (N.eq_dec b 0) as [->|]; [reflexivity|].
    apply N.log2_lt_pow2; [lia | exact Hb]. }
  lia.
Qed.

Lemma xor_char_involutive (c k : ascii) : xor_char (xor_char c k) k = c.
Proof.
  unfold xor_char.
  rewrite N_ascii_embedding
    by (apply lxor_byte; apply N_ascii_bounded).
  rewrite N.lxor_assoc, N.lxor_nilpotent, N.lxor_0_r.
  apply ascii_N_embedding.
Qed.

Lemma encrypt_from_involutive (key : string) (s : string) (i : nat) :
  encrypt_from i (encrypt_from i s key) key = s.
Proof.
  revert i; induction s as [|c s IH]; intros i; cbn [encrypt_from]; [reflexivity|].
  now rewrite xor_char_involutive, IH.
Qed.

Lemma length_encrypt_from (key : string) (s : string) (i : nat) :
  length (encrypt_from i s key) = length s.
Proof.
  revert i; induction s as [|c s IH]; intros i; cbn; [reflexivity|].
  now rewrite IH.
Qed.

(** X1. [decrypt] undoes [encrypt] on every byte string, NUL and
    non-printable bytes included, and [encrypt] keeps the length. *)
Theorem decrypt_encrypt (plaintext : string) :
  decrypt (encrypt plaintext) = plaintext
  /\ encrypt (decrypt plaintext) = plaintext
  /\ length (encrypt plaintext) = length plaintext.
Proof.
  unfold decrypt, encrypt.
  rewrite encrypt_from_involutive, length_encrypt_from. auto.
Qed.

Lemma hex_pair_decodes (c : ascii) :
  match stoi16 (String (hex_char (N.shiftr (N_of_ascii c) 4))
                  (String (hex_char (N.land (N_of_ascii c) 15)) ""))
  with
  | inr byte => to_char byte = c
  | inl _ => False
  end.
Proof.
  destruct c as [[] [] [] [] [] [] [] []]; vm_compute; reflexivity.
Qed.

(** X2. [fromHex] decodes what [toHex] produced: no exception, and the
    original bytes come back. *)
Theorem fromHex_toHex (data : string) : fromHex (toHex data) = inr data.
Proof.
  induction data as [|c data IH]; [reflexivity|].
  cbn [toHex fromHex]. pose proof (hex_pair_decodes c) as H.
  destruct (stoi16 _) as [e|byte]; [destruct H|].
  now rewrite IH, H.
Qed.

Lemma hex_pair_upper (c : ascii) :
  let hi := nat_of_ascii (hex_char (N.shiftr (N_of_ascii c) 4)) in
  let lo := nat_of_ascii (hex_char (N.land (N_of_ascii c) 15)) in
  ((48 <= hi <= 57 \/ 65 <= hi <= 70) /\ (48 <= lo <= 57 \/ 65 <= lo <= 70))%nat.
Proof.
  destruct c as [[] [] [] [] [] [] [] []]; vm_compute; intuition lia.
Qed.

(** X3. [toHex] writes two characters per byte, each a digit or a
    capital A to F. *)
Theorem toHex_shape (data : string) :
  length (toHex data) = (2 * length data)%nat
  /\ Forall (fun c => let n := nat_of_ascii c in
                      (48 <= n <= 57 \/ 65 <= n <= 70)%nat)
            (list_ascii_of_string (toHex data)).
Proof.
  induction data as [|c data [IHl IHf]]; [split; [reflexivity | constructor]|].
  cbn [toHex length list_ascii_of_string]. split; [lia|].
  destruct (hex_pair_upper c) as [Hhi Hlo].
  constructor; [exact Hhi|]. constructor; [exact Hlo | assumption].
Qed.

End Codec.

(** ** [Utils::split] and [Utils::trim] *)

Section SplitTrim.
Import Utils.

Lemma string_of_list_ascii_app (l1 l2 : list ascii) :
  string_of_list_ascii (l1 ++ l2)
    = string_of_list_ascii l1 ++ string_of_list_ascii l2.
Proof. induction l1 as [|c l1 IH]; cbn; [reflexivity | now rewrite IH]. Qed.

Lemma split_loop_pending (s : string) (d : ascii) (tok : list ascii) :
  tok <> [] -> split_loop s d tok <> [].
Proof.
  revert tok; induction s as [|c s IH]; intros tok Htok; cbn.
  - destruct tok; [congruence | discriminate].
  - destruct (Ascii.eqb c d); [discriminate | apply IH; discriminate].
Qed.

Lemma split_loop_nil (s : string) (d : ascii) :
  split_loop s d [] = [] -> s = "".
Proof.
  destruct s as [|c s]; [reflexivity|]. cbn.
  destruct (Ascii.eqb c d); [discriminate|].
  intros H. now apply split_loop_pending in H.
Qed.

Lemma concat_cons2 (sep a b : string) (l : list string) :
  concat sep (a :: b :: l) = a ++ sep ++ concat sep (b :: l).
Proof. reflexivity. Qed.

Lemma split_loop_join (s : string) (d : ascii) (tok : list ascii) :
  concat (String d "") (split_loop s d tok)
    = string_of_list_ascii (rev tok) ++ chop d s.
Proof.
  revert tok; induction s as [|c s IH]; intros tok.
  - cbn. destruct tok; cbn [concat]; now rewrite ?append_nil_r.
  - cbn [split_loop]. destruct (Ascii.eqb c d) eqn:Hc.
    + apply Ascii.eqb_eq in Hc; subst c.
      specialize (IH []). cbn [rev string_of_list_ascii append] in IH.
      destruct (split_loop s d []) as [|x l] eqn:Hs.
      * apply split_loop_nil in Hs; subst s. cbn.
        now rewrite Ascii.eqb_refl, append_nil_r.
      * rewrite concat_cons2, IH.
        destruct s as [|c2 s2]; [discriminate Hs|]. reflexivity.
    + rewrite IH. cbn [rev]. rewrite string_of_list_ascii_app, append_assoc.
      f_equal. destruct s; cbn; now rewrite ?Hc.
Qed.

Lemma chop_keeps (d : ascii) (s : string) :
  last_char s <> Some d -> chop d s = s.
Proof.
  induction s as [|c s IH]; [reflexivity|]. cbn.
  destruct s as [|c2 s2].
  - intros H. destruct (Ascii.eqb_spec c d); [congruence | reflexivity].
  - intros H. now rewrite IH.
Qed.

Lemma free_of_list (d : ascii) (l : list ascii) :
  Forall (fun c => Ascii.eqb c d = false) l ->
  free_of d (string_of_list_ascii l) = true.
Proof.
  induction 1 as [|c l Hc _ IH]; [reflexivity|]. cbn. now rewrite Hc, IH.
Qed.

Lemma split_loop_free (s : string) (d : ascii) (tok : list ascii) :
  Forall (fun c => Ascii.eqb c d = false) tok ->
  Forall (fun t => free_of d t = true) (split_loop s d tok).
Proof.
  revert tok; induction s as [|c s IH]; intros tok Htok; cbn.
  - destruct tok; constructor; [|constructor].
    apply free_of_list, Forall_rev, Htok.
  - destruct (Ascii.eqb c d) eqn:Hc.
    + constructor; [apply free_of_list, Forall_rev, Htok | apply IH; constructor].
    + apply IH. now constructor.
Qed.

(** X4. Joining the tokens of [split] with the delimiter gives the
    input back, less one final delimiter when the input ends with one
    (the empty token after it is not produced); no token holds the
    delimiter. *)
Theorem split_join (str : string) (delimiter : ascii) :
  concat (String delimiter "") (split str delimiter) = chop delimiter str
  /\ (last_char str <> Some delimiter ->
      concat (String delimiter "") (split str delimiter) = str)
  /\ Forall (fun token => free_of delimiter token = true) (split str delimiter).
Proof.
  unfold split. rewrite split_loop_join. cbn [rev string_of_list_ascii append].
  repeat split.
  - apply chop_keeps.
  - apply split_loop_free. constructor.
Qed.

Lemma find_last_rtrim (r : string) :
  find_last_not_of (rtrim r) " " = find_last_not_of r " ".
Proof.
  induction r as [|a r IH]; [reflexivity|].
  rewrite rtrim_cons. cbn [find_last_not_of].
  destruct (find_last_not_of r " ") as [j|] eqn:E.
  - cbn [find_last_not_of]. now rewrite IH.
  - destruct (Ascii.eqb a " ") eqn:Ha; cbn; now rewrite ?Ha.
Qed.

Lemma rtrim_idempotent (r : string) : rtrim (rtrim r) = rtrim r.
Proof.
  unfold rtrim at 1. rewrite find_last_rtrim. unfold rtrim.
  destruct (find_last_not_of r " ") as [j|]; [|reflexivity].
  apply substring_all, length_substring_le.
Qed.

Lemma trim_shape (s : string) :
  trim s = "" \/ exists a r, trim s = String a (rtrim r) /\ Ascii.eqb a " " = false.
Proof.
  induction s as [|c s IH]; [now left|].
  destruct (Ascii.eqb c " ") eqn:Hc.
  - apply Ascii.eqb_eq in Hc; subst c. now rewrite trim_space.
  - right. exists c, s. now rewrite trim_nonspace.
Qed.

Lemma find_last_bound (s : string) (j : nat) :
  find_last_not_of s " " = Some j -> (j < length s)%nat.
Proof.
  revert j; induction s as [|a s IH]; intros j; cbn; [discriminate|].
  destruct (find_last_not_of s " ") as [i|].
  - intros [= <-]. specialize (IH i eq_refl). lia.
  - destruct (Ascii.eqb a " "); [discriminate|]. intros [= <-]. lia.
Qed.

Lemma last_index_not_space (s : string) :
  find_last_not_of s " " = Some (length s - 1)%nat ->
  last_char s <> Some " "%char.
Proof.
  induction s as [|a s IH]; cbn [find_last_not_of]; [discriminate|].
  destruct (find_last_not_of s " ") as [i|] eqn:E.
  - intros [= Hi]. pose proof (find_last_bound _ _ E) as Hb.
    cbn [length] in Hi.
    destruct s as [|b s']; [cbn in Hb; lia|].
    cbn [last_char]. apply IH. f_equal. cbn [length] in *. lia.
  - destruct (Ascii.eqb_spec a " ") as [|Ha]; [discriminate|].
    intros [= Hl]. cbn [length] in Hl.
    destruct s; [|cbn in Hl; lia]. cbn. congruence.
Qed.

Lemma length_substring_prefix (n : nat) (s : string) :
  (n <= length s)%nat -> length (substring 0 n s) = n.
Proof.
  revert n; induction s as [|c s IH]; intros [|n] H; cbn in *; try lia.
  now rewrite IH by lia.
Qed.

(** X5. [trim] is idempotent, and what it returns neither starts nor
    ends with a space. *)
Theorem trim_idempotent (str : string) :
  trim (trim str) = trim str
  /\ first_char (trim str) <> Some " "%char
  /\ last_char (trim str) <> Some " "%char.
Proof.
  destruct (trim_shape str) as [->|(a & r & -> & Ha)]; [repeat split; discriminate|].
  split; [|split].
  - now rewrite trim_nonspace, rtrim_idempotent.
  - cbn. intros [= ->]. discriminate.
  - apply last_index_not_space. cbn [find_last_not_of length].
    rewrite find_last_rtrim. unfold rtrim.
    destruct (find_last_not_of r " ") as [j|] eqn:E.
    + rewrite length_substring_prefix by (apply find_last_bound in E; lia).
      f_equal; lia.
    + now rewrite Ha.
Qed.

End SplitTrim.

(** ** More on the registry *)

Section RegistryLaws.
Import StdMap StdMapFacts.

Lemma lt_trans_compare (a b c : string) :
  String_as_OT.compare a b = Lt -> String_as_OT.compare b c = Lt ->
  String_as_OT.compare a c = Lt.
Proof.
  intros Hab Hbc.
  exact (@StrictOrder_Transitive _ _ String_as_OT.lt_strorder a b c Hab Hbc).
Qed.

Lemma erase_assign_absent (k : string) (v : ClientInfo) (m : clients_map) :
  find k m = None -> erase k (assign k v m) = m.
Proof.
  induction m as [|[k' v'] m IH]; cbn.
  - now rewrite compare_refl.
  - destruct (String_as_OT.compare k k') eqn:E; cbn; intros H.
    + discriminate.
    + now rewrite compare_refl.
    + now rewrite E, IH.
Qed.

Lemma assign_assign (k : string) (v1 v2 : ClientInfo) (m : clients_map) :
  assign k v2 (assign k v1 m) = assign k v2 m.
Proof.
  induction m as [|[k' v'] m IH]; cbn.
  - now rewrite compare_refl.
  - destruct (String_as_OT.compare k k') eqn:E; cbn.
    + now rewrite compare_refl.
    + now rewrite compare_refl.
    + now rewrite E, IH.
Qed.

Lemma find_assign_other (k k' : string) (v : ClientInfo) (m : clients_map) :
  k <> k' -> find k' (assign k v m) = find k' m.
Proof.
  intros Hne. induction m as [|[k1 v1] m IH]; cbn.
  - destruct (String_as_OT.compare k' k) eqn:E; try reflexivity.
    apply compare_Eq in E. congruence.
  - destruct (String_as_OT.compare k k1) eqn:E; cbn.
    + apply compare_Eq in E; subst k1.
      destruct (String_as_OT.compare k' k) eqn:E'; try reflexivity.
      apply compare_Eq in E'. congruence.
    + destruct (String_as_OT.compare k' k) eqn:E'.
      * apply compare_Eq in E'. congruence.
      * now rewrite (lt_trans_compare _ _ _ E' E).
      * reflexivity.
    + destruct (String_as_OT.compare k' k1); auto.
Qed.

Lemma find_below_head (k' k1 : string) (v1 : ClientInfo) (m : clients_map) :
  ordered ((k1, v1) :: m) -> String_as_OT.compare k' k1 = Lt -> find k' m = None.
Proof.
  destruct m as [|[k2 v2] m]; [reflexivity|]. intros Hm Hlt. cbn.
  now rewrite (lt_trans_compare _ _ _ Hlt (ordered_head _ _ _ _ _ Hm)).
Qed.

Lemma find_erase_other (k k' : string) (m : clients_map) :
  ordered m -> k <> k' -> find k' (erase k m) = find k' m.
Proof.
  intros Hm Hne. induction m as [|[k1 v1] m IH]; cbn; [reflexivity|].
  destruct (String_as_OT.compare k k1) eqn:E; cbn.
  - apply compare_Eq in E; subst k1.
    destruct (String_as_OT.compare k' k) eqn:E'.
    + apply compare_Eq in E'. congruence.
    + eapply find_below_head; eassumption.
    + reflexivity.
  - reflexivity.
  - destruct (String_as_OT.compare k' k1); auto.
    apply IH. eapply ordered_tail; eassumption.
Qed.

(** X6. After [registerClient] the name resolves to the new entry and
    every other name resolves as before; registering a name that is
    already there replaces its entry. *)
Theorem register_lookup (x : string) (c c' : ClientInfo) (w : World) :
  find x (clients (ChatServer.registerClient x c w)) = Some c
  /\ (forall y, x <> y ->
        find y (clients (ChatServer.registerClient x c w)) = find y (clients w))
  /\ ChatServer.registerClient x c' (ChatServer.registerClient x c w)
     = ChatServer.registerClient x c' w.
Proof.
  unfold ChatServer.registerClient, set_clients; cbn. repeat split.
  - apply find_assign_same.
  - intros y Hy. now apply find_assign_other.
  - now rewrite assign_assign.
Qed.

(** X7. After [deregisterClient] the name no longer resolves and every
    other name resolves as before. *)
Theorem deregister_lookup (x : string) (w : World) :
  ordered (clients w) ->
  find x (clients (ChatServer.deregisterClient x w)) = None
  /\ (forall y, x <> y ->
        find y (clients (ChatServer.deregisterClient x w)) = find y (clients w)).
Proof.
  intros Hm. unfold ChatServer.deregisterClient, set_clients; cbn. split.
  - now apply find_erase_same.
  - intros y Hy. now apply find_erase_other.
Qed.

(** X8. Registering a name that was not there and deregistering it
    again gives the world back as it was. *)
Theorem register_then_deregister (x : string) (c : ClientInfo) (w : World) :
  find x (clients w) = None ->
  ChatServer.deregisterClient x (ChatServer.registerClient x c w) = w.
Proof.
  intros Hx. unfold ChatServer.deregisterClient, ChatServer.registerClient, set_clients; cbn.
  rewrite erase_assign_absent by assumption. now destruct w.
Qed.

End RegistryLaws.

(** ** More on the router *)

Section RouterLaws.
Import ChatServer.
Local Open Scope Z_scope.

Lemma sends_send_ (fd : socket) (data : string) (w : World) :
  sends (trace (send_ fd data w)) = (sends (trace w) ++ [(fd, data)])%list.
Proof.
  destruct (trace_send_ fd data w) as [r ->]. now rewrite sends_app.
Qed.

Lemma broadcast_loop_sends (m : clients_map) (msg sender : string) (w : World) :
  sends (trace (broadcast_loop m msg sender w)) =
    (sends (trace w) ++
     map (fun b => (socket_fd (snd b), msg))
         (filter (fun b => negb (String.eqb (fst b) sender)) m))%list.
Proof.
  revert w; induction m as [|[name info] m IH]; intros w; cbn.
  - now rewrite app_nil_r.
  - rewrite IH. destruct (negb (name =? sender)%string); cbn; [|reflexivity].
    now rewrite sends_send_, <- app_assoc.
Qed.

Lemma inbound_broadcast_loop (m : clients_map) (msg sender : string) (w : World) :
  inbound (broadcast_loop m msg sender w) = inbound w.
Proof.
  revert w; induction m as [|[name info] m IH]; intros w; cbn; [reflexivity|].
  rewrite IH. destruct (negb (name =? sender)%string); [apply inbound_send_|reflexivity].
Qed.

(** X9. [broadcast] hands the message to [send] once for every binding
    of the registry whose name is not the sender's, in key order, and to
    no other socket; the registry is not changed. *)
Theorem broadcast_delivery (message sender : string) (w : World) :
  sends (trace (broadcast message sender w)) =
    (sends (trace w) ++
     map (fun b => (socket_fd (snd b), message))
         (filter (fun b => negb (String.eqb (fst b) sender)) (clients w)))%list
  /\ clients (broadcast message sender w) = clients w.
Proof.
  unfold broadcast, maybe_encrypt; cbn [Encryption.isEnabled].
  now rewrite broadcast_loop_sends, clients_broadcast_loop.
Qed.

Lemma prefix_empty (s : string) : prefix "" s = true.
Proof. now destruct s. Qed.

Lemma index_first_space (t rest : string) :
  free_of " " t = true ->
  index 0 " " (t ++ String " " rest) = Some (length t).
Proof.
  induction t as [|c t IH]; cbn [free_of append length]; intros Hfree.
  - cbn [index prefix]. rewrite prefix_empty.
    now destruct (Ascii.ascii_dec " " " ").
  - apply andb_true_iff in Hfree as [Hc Ht]. apply negb_true_iff in Hc.
    cbn [index prefix].
    destruct (Ascii.ascii_dec " " c) as [<-|_]; [discriminate Hc|].
    now rewrite IH.
Qed.

Lemma index_no_space (t : string) (n : nat) :
  free_of " " t = true -> index n " " t = None.
Proof.
  revert n; induction t as [|c t IH]; intros n Hfree.
  - now destruct n.
  - cbn [free_of] in Hfree.
    apply andb_true_iff in Hfree as [Hc Ht]. apply negb_true_iff in Hc.
    destruct n as [|n]; cbn [index prefix].
    + destruct (Ascii.ascii_dec " " c) as [<-|_]; [discriminate Hc|].
      now rewrite IH.
    + now rewrite IH.
Qed.

Lemma substring_app_prefix (a b : string) : substring 0 (length a) (a ++ b) = a.
Proof. induction a as [|c a IH]; cbn; [apply substring_0_0 | now rewrite IH]. Qed.

Lemma substring_app_skip (a b : string) (n : nat) :
  substring (length a) n (a ++ b) = substring 0 n b.
Proof. induction a as [|c a IH]; cbn; [reflexivity | apply IH]. Qed.

Lemma substring_app_skip1 (a b : string) (c : ascii) (n : nat) :
  substring (S (length a)) n (a ++ String c b) = substring 0 n b.
Proof. induction a as [|x a IH]; cbn; [reflexivity | apply IH]. Qed.

(** A line "@target content" is routed as a private message. *)
Lemma processMessage_private (target content sender_username : string)
    (sender_socket : socket) :
  free_of " " target = true ->
  processMessage ("@" ++ target ++ " " ++ content) sender_username sender_socket
    = act (sendPrivateMessage target content sender_username).
Proof.
  intros Hfree. unfold processMessage.
  cbn [append String.eqb Ascii.eqb Bool.eqb].
  unfold find. cbn [index prefix].
  destruct (Ascii.ascii_dec "@" "@") as [_|Hne]; [|congruence].
  rewrite prefix_empty. cbn [found_at_0]. rewrite index_first_space by assumption.
  unfold substr_from. cbn [length substring Nat.sub Nat.add].
  rewrite Nat.sub_0_r, substring_app_prefix.
  replace (length target + 1)%nat with (S (length target)) by lia.
  rewrite length_append. cbn [length].
  replace (length target + S (length content) - S (length target))%nat
    with (length content) by lia.
  cbn [substring]. rewrite substring_app_skip1.
  now rewrite substring_all by lia.
Qed.

(** X10. A line "@target text" whose target is not in the registry:
    the only send is the "not found or offline" error, on the socket
    registered under the sender's name (none when the sender has no
    entry); the registry is not changed. *)
Theorem private_message_to_absent_target
    (target content sender_username : string) (sender_socket : socket)
    (w : World) :
  free_of " " target = true ->
  StdMap.find target (clients w) = None ->
  exists w',
    processMessage ("@" ++ target ++ " " ++ content) sender_username
                   sender_socket w = Ret tt w'
    /\ sends (trace w') =
         (sends (trace w) ++
          match StdMap.find sender_username (clients w) with
          | Some s =>
              [(socket_fd s,
                ("ERROR: User '" ++ target ++ "' not found or offline")%string)]
          | None => []
          end)%list
    /\ clients w' = clients w.
Proof.
  intros Hfree Habsent. rewrite processMessage_private by assumption.
  unfold act, sendPrivateMessage, maybe_encrypt; cbn [Encryption.isEnabled].
  rewrite Habsent. eexists; split; [reflexivity|].
  destruct (StdMap.find sender_username (clients w)).
  - now rewrite sends_send_, clients_send_.
  - now rewrite app_nil_r.
Qed.

(** X11. A line "@target text" whose target is registered: the target's
    socket gets the text tagged with the sender's name, then the socket
    registered under the sender's name gets the echo; nobody else gets
    anything and the registry is not changed. *)
Theorem private_message_delivery
    (target content sender_username : string) (sender_socket : socket)
    (recipient : ClientInfo) (w : World) :
  free_of " " target = true ->
  StdMap.find target (clients w) = Some recipient ->
  exists w',
    processMessage ("@" ++ target ++ " " ++ content) sender_username
                   sender_socket w = Ret tt w'
    /\ sends (trace w') =
         (sends (trace w) ++
          (socket_fd recipient,
           ("[PRIVATE] " ++ sender_username ++ " -> You: " ++ content)%string)
          :: match StdMap.find sender_username (clients w) with
             | Some s =>
                 [(socket_fd s,
                   ("[PRIVATE] You -> " ++ target ++ ": " ++ content)%string)]
             | None => []
             end)%list
    /\ clients w' = clients w.
Proof.
  intros Hfree Hfound. rewrite processMessage_private by assumption.
  unfold act, sendPrivateMessage, maybe_encrypt; cbn [Encryption.isEnabled].
  rewrite Hfound, clients_send_. eexists; split; [reflexivity|].
  destruct (StdMap.find sender_username (clients w)).
  - now rewrite !sends_send_, !clients_send_, <- app_assoc.
  - now rewrite sends_send_, clients_send_.
Qed.

(** X12. A line that starts with "@" and holds no space gets the format
    error on the sender's own socket, whatever the registry holds. *)
Theorem private_message_without_text
    (target sender_username : string) (sender_socket : socket) (w : World) :
  free_of " " target = true ->
  exists w',
    processMessage ("@" ++ target) sender_username sender_socket w = Ret tt w'
    /\ sends (trace w') =
         (sends (trace w) ++
          [(sender_socket, "ERROR: Invalid format. Use: @username message")])%list
    /\ clients w' = clients w.
Proof.
  intros Hfree. unfold processMessage.
  cbn [append String.eqb Ascii.eqb Bool.eqb].
  unfold find. cbn [index prefix].
  destruct (Ascii.ascii_dec "@" "@") as [_|Hne]; [|congruence].
  rewrite prefix_empty. cbn [found_at_0]. rewrite index_no_space by assumption.
  unfold act, maybe_encrypt; cbn [Encryption.isEnabled].
  eexists; split; [reflexivity|]. now rewrite sends_send_, clients_send_.
Qed.

Lemma clients_stream_loop (s r : socket) (file_size total : Z) (w : World) :
  clients (snd (FileTransferHandler.stream_loop s r file_size total w)) = clients w.
Proof.
  funelim (FileTransferHandler.stream_loop s r file_size total w);
    try rewrite <- Heqcall; clear Heqcall;
    repeat match goal with
    | H : recv ?fd ?n ?w0 = _ |- _ =>
        let Hr := fresh "Hrecv" in
        pose proof (recv_spec fd n w0) as Hr; rewrite H in Hr;
        destruct Hr as (_ & ? & _ & _);
        [unfold FileTransferHandler.CHUNK_SIZE; lia|]; clear H
    | H : send ?fd ?data ?w0 = _ |- _ =>
        let Hs := fresh "Hsend" in
        pose proof (send_spec fd data w0) as Hs; rewrite H in Hs;
        destruct Hs as (_ & ?); clear H
    end; cbn [snd] in *; congruence.
Qed.

Lemma clients_sendPrivateMessage (target message sender : string) (w : World) :
  clients (sendPrivateMessage target message sender w) = clients w.
Proof.
  unfold sendPrivateMessage.
  destruct (StdMap.find target (clients w)).
  - rewrite clients_send_.
    destruct (StdMap.find sender (clients w)); now rewrite ?clients_send_.
  - destruct (StdMap.find sender (clients w)); now rewrite ?clients_send_.
Qed.

Lemma clients_handleFileTransfer (sender_socket : socket)
    (sender_username recipient_username filename : string) (file_size : Z)
    (w : World) :
  clients (handleFileTransfer sender_socket sender_username recipient_username
             filename file_size w) = clients w.
Proof.
  unfold handleFileTransfer, FileTransferHandler.streamFileData.
  destruct (_ =? -1); [apply clients_send_|].
  match goal with
  | |- context [FileTransferHandler.stream_loop ?s ?r ?n ?t ?w0] =>
      pose proof (clients_stream_loop s r n t w0) as H;
      destruct (FileTransferHandler.stream_loop s r n t w0) as [[success moved_] w1]
  end.
  cbn [snd] in H. destruct success; now rewrite !clients_send_, H, !clients_send_.
Qed.

Lemma clients_processMessage
    (message sender_username : string) (sender_socket : socket) (w : World) :
  match processMessage message sender_username sender_socket w with
  | Ret _ w' => clients w' = clients w
  | Raise _ w' => w' = w
  end.
Proof.
  unfold processMessage, act, raise.
  destruct (String.eqb message "/list"); [apply clients_send_|].
  destruct (found_at_0 (find message "@" 0)).
  { destruct (find message " " 1);
      [apply clients_sendPrivateMessage | apply clients_send_]. }
  destruct (found_at_0 (find message "/sendfile" 0)).
  { destruct (_ <? 4)%nat; [apply clients_send_|].
    destruct (stol _) as [e|file_size]; [reflexivity|].
    destruct (_ || _); [apply clients_send_ | apply clients_handleFileTransfer]. }
  destruct (String.eqb message "/quit"); [apply clients_send_|].
  unfold broadcast. apply clients_broadcast_loop.
Qed.

(** X13. [processMessage] never changes the registry, whatever the line
    and whether it returns or throws. *)
Theorem processMessage_keeps_registry
    (message sender_username : string) (sender_socket : socket) (w : World) :
  match processMessage message sender_username sender_socket w with
  | Ret _ w' => clients w' = clients w
  | Raise _ w' => w' = w
  end.
Proof. exact (clients_processMessage message sender_username sender_socket w). Qed.

(** X14. [processMessage] throws exactly on the lines that start with
    "/sendfile", have at least four fields and a fourth field that
    [std::stol] refuses; on every other line it returns. *)
Theorem processMessage_throws_iff
    (message sender_username : string) (sender_socket : socket) (w : World) :
  (exists e w', processMessage message sender_username sender_socket w
                = Raise e w')
  <->
  (found_at_0 (find message "/sendfile" 0) = true
   /\ (4 <= List.length (Utils.split message " "))%nat
   /\ exists e, stol (nth 3 (Utils.split message " ") "") = inl e).
Proof.
  split.
  - intros (e & w' & H). revert H. unfold processMessage, act, raise.
    destruct (String.eqb message "/list"); [discriminate|].
    destruct (found_at_0 (find message "@" 0)).
    { destruct (find message " " 1); discriminate. }
    destruct (found_at_0 (find message "/sendfile" 0)).
    + destruct (Nat.ltb_spec (List.length (Utils.split message " ")) 4);
        [discriminate|].
      destruct (stol _) as [e0|file_size] eqn:Hs.
      * intros _. repeat split; [assumption | now exists e0].
      * destruct (_ || _); discriminate.
    + destruct (String.eqb message "/quit"); discriminate.
  - intros (Hcmd & Harity & e & Hs). exists e, w.
    now apply unparsable_size_raises.
Qed.

End RouterLaws.

(** ** The relay, byte for byte *)

Section RelayDelivery.
Import FileTransferHandler.
Local Open Scope Z_scope.

Lemma substring_split (k : nat) (s : string) :
  s = substring 0 k s ++ substring k (length s - k) s.
Proof.
  revert k; induction s as [|c s IH]; intros [|k]; cbn.
  - reflexivity.
  - reflexivity.
  - now rewrite substring_all by lia.
  - now rewrite <- IH.
Qed.

Lemma append_cancel_prefix (a x p e : string) :
  a ++ x = p ++ e -> (length a <= length p)%nat ->
  exists p', p = a ++ p' /\ x = p' ++ e.
Proof.
  revert p; induction a as [|c a IH]; intros p H Hlen.
  - exists p. now cbn in *.
  - destruct p as [|c' p]; [cbn in Hlen; lia|].
    cbn in H. injection H as <- H.
    destruct (IH p H) as (p' & -> & ->); [cbn in Hlen; lia|].
    now exists p'.
Qed.

(** A read on a socket that still has bytes pending returns some of
    them, in order, and leaves the rest pending. *)
Lemma recv_pending (fd : socket) (n : Z) (w : World) :
  1 <= n -> pending (inbound w fd) <> "" ->
  let '((ret, data), w') := recv fd n w in
  0 < ret /\ ret = strlen data /\ ret <= n
  /\ pending (inbound w fd) = data ++ pending (inbound w' fd)
  /\ outbound w' = outbound w.
Proof.
  intros Hn Hp. unfold recv.
  destruct (inbound w fd) as [|[bytes|] rest]; cbn [pending] in Hp; try congruence.
  destruct bytes as [|c bytes]; [cbn in Hp; congruence|].
  cbn [pending is_empty]. cbn [fst snd inbound outbound log set_inbound].
  rewrite Z.eqb_refl.
  set (k := Z.to_nat n). set (s := String c bytes).
  pose proof (length_substring_le 0 k s) as Hle.
  assert (Hpos : (1 <= length (substring 0 k s))%nat).
  { destruct k as [|k'] eqn:Ek; [lia|]. subst s. cbn. lia. }
  repeat split; unfold strlen; try lia.
  rewrite (substring_split k s) at 1. rewrite append_assoc. f_equal.
  destruct (substring k (length s - k) s); reflexivity.
Qed.

Lemma send_accepting (fd : socket) (data : string) (w : World) :
  outbound w fd = [] ->
  send fd data w = (strlen data, log (ESend fd data (strlen data)) w).
Proof. intros H. unfold send. now rewrite H. Qed.

(** The loop from [total] when the sender has the missing bytes pending
    and the recipient takes every write. *)
Lemma stream_loop_delivers (s r : socket) (file_size total : Z) (w : World) :
  forall payload extra,
  total <= file_size ->
  strlen payload = file_size - total ->
  pending (inbound w s) = payload ++ extra ->
  outbound w r = [] ->
  exists tr w',
    stream_loop s r file_size total w = ((true, file_size), w')
    /\ trace w' = (trace w ++ tr)%list
    /\ sends tr = map (fun chunk => (r, chunk)) (chunks_out tr)
    /\ concat "" (chunks_out tr) = payload
    /\ pending (inbound w' s) = extra
    /\ outbound w' r = [].
Proof.
  funelim (stream_loop s r file_size total w);
    intros payload extra Hle Hlen Hpend Hout;
    try rewrite <- Heqcall; clear Heqcall.
  - (* nothing is missing *)
    assert (payload = "") as ->
      by (destruct payload;
          [reflexivity | unfold strlen in Hlen; cbn in Hlen; lia]).
    exists [], w. rewrite app_nil_r. cbn in *. repeat split; try assumption.
    f_equal. f_equal. lia.
  - (* a failing read: excluded, bytes are pending *)
    exfalso.
    assert (Hne : pending (inbound w sender_socket) <> "").
    { rewrite Hpend. destruct payload; [unfold strlen in Hlen; cbn in Hlen; lia | discriminate]. }
    pose proof (recv_pending sender_socket
                  (Z.min (file_size - total_transferred) CHUNK_SIZE) w
                  ltac:(unfold CHUNK_SIZE; lia) Hne) as Hr.
    match goal with H : recv _ _ _ = _ |- _ => rewrite H in Hr end.
    lia.
  - (* a failing write: excluded, the recipient takes every write *)
    exfalso.
    assert (Hne : pending (inbound w sender_socket) <> "").
    { rewrite Hpend. destruct payload; [unfold strlen in Hlen; cbn in Hlen; lia | discriminate]. }
    pose proof (recv_pending sender_socket
                  (Z.min (file_size - total_transferred) CHUNK_SIZE) w
                  ltac:(unfold CHUNK_SIZE; lia) Hne) as Hr.
    match goal with H : recv _ _ _ = _ |- _ => rewrite H in Hr end.
    destruct Hr as (Hpos & Hret & _ & _ & Ho).
    match goal with H : send _ _ _ = _ |- _ =>
      rewrite send_accepting in H by (now rewrite Ho); injection H as <- _ end.
    lia.
  - (* one chunk relayed *)
    assert (Hne : pending (inbound w sender_socket) <> "").
    { rewrite Hpend. destruct payload; [unfold strlen in Hlen; cbn in Hlen; lia | discriminate]. }
    pose proof (recv_pending sender_socket
                  (Z.min (file_size - total_transferred) CHUNK_SIZE) w
                  ltac:(unfold CHUNK_SIZE; lia) Hne) as Hr.
    pose proof (recv_spec sender_socket
                  (Z.min (file_size - total_transferred) CHUNK_SIZE) w
                  ltac:(unfold CHUNK_SIZE; lia)) as Hrs.
    match goal with H : recv _ _ _ = _ |- _ => rewrite H in Hr, Hrs; clear H end.
    destruct Hr as (Hpos & Hret & Hbound & Hsplit & Ho).
    destruct Hrs as (Htr1 & _).
    match goal with H : send _ _ _ = _ |- _ =>
      rewrite send_accepting in H by (now rewrite Ho); injection H as <- <- end.
    rewrite Hpend in Hsplit. symmetry in Hsplit.
    apply append_cancel_prefix in Hsplit as (payload' & -> & Hrest);
      [|unfold strlen in *; lia].
    specialize (H payload' extra).
    destruct H as (tr & w' & Hrun & Htr & Hsends & Hcat & Hp' & Ho').
    + lia.
    + unfold strlen in *. rewrite length_append in Hlen. lia.
    + exact Hrest.
    + cbn. now rewrite Ho.
    + exists (ERecv sender_socket
                (Z.min (file_size - total_transferred) CHUNK_SIZE)
                bytes_received buffer
              :: ESend recipient_socket buffer (strlen buffer) :: tr), w'.
      repeat split; try assumption.
      * rewrite Htr. cbn [trace log]. rewrite Htr1, <- !app_assoc. reflexivity.
      * cbn. now rewrite Hsends.
      * cbn [chunks_out]. destruct (chunks_out tr) eqn:E; cbn [concat] in *.
        -- subst payload'. now rewrite append_nil_r.
        -- now rewrite <- Hcat.
Qed.

(** X15. When the sender's stream holds the declared number of bytes
    (in any segmentation) and the recipient takes every write,
    [streamFileData] returns [true] with [bytesMoved] equal to the size;
    the buffers handed to the recipient, put end to end, are exactly
    those bytes, and the bytes that follow them stay unread on the
    sender's stream. *)
Theorem relay_exact_delivery (sender_socket recipient_socket : socket)
    (sender_username recipient_username filename : string)
    (file_size : Z) (payload extra : string) (w : World) :
  strlen payload = file_size ->
  pending (inbound w sender_socket) = payload ++ extra ->
  outbound w recipient_socket = [] ->
  exists tr w',
    streamFileData sender_socket recipient_socket
      sender_username recipient_username filename file_size w
      = ((true, file_size), w')
    /\ trace w' = (trace w ++ tr)%list
    /\ sends tr = map (fun chunk => (recipient_socket, chunk)) (chunks_out tr)
    /\ concat "" (chunks_out tr) = payload
    /\ pending (inbound w' sender_socket) = extra.
Proof.
  intros Hlen Hpend Hout. unfold streamFileData.
  destruct (stream_loop_delivers sender_socket recipient_socket file_size 0 w
              payload extra) as (tr & w' & Hrun & Htr & Hs & Hc & Hp & _);
    try assumption; try (unfold strlen in *; lia).
  exists tr, w'. auto.
Qed.

(** A read on a socket with nothing pending returns zero or an error. *)
Lemma recv_nothing_pending (fd : socket) (n : Z) (w : World) :
  pending (inbound w fd) = "" -> fst (fst (recv fd n w)) <= 0.
Proof.
  intros Hp. unfold recv.
  destruct (inbound w fd) as [|[bytes|] rest]; cbn; try lia.
  cbn [pending] in Hp. destruct bytes as [|c bytes]; [|discriminate Hp].
  cbn. destruct (Z.to_nat n); cbn; lia.
Qed.

(** The loop from [total] when the sender has fewer bytes pending than
    are missing. *)
Lemma stream_loop_starves (s r : socket) (file_size total : Z) (w : World) :
  strlen (pending (inbound w s)) < file_size - total ->
  outbound w r = [] ->
  exists tr w',
    stream_loop s r file_size total w
      = ((false, total + strlen (pending (inbound w s))), w')
    /\ trace w' = (trace w ++ tr)%list
    /\ concat "" (chunks_out tr) = pending (inbound w s).
Proof.
  funelim (stream_loop s r file_size total w); intros Hshort Hout;
    try rewrite <- Heqcall; clear Heqcall.
  - (* the loop would be over: excluded, bytes are missing *)
    exfalso. unfold strlen in Hshort. lia.
  - (* the read fails: nothing was pending any more *)
    destruct (string_dec (pending (inbound w sender_socket)) "") as [He|Hne].
    + pose proof (recv_spec sender_socket
                    (Z.min (file_size - total_transferred) CHUNK_SIZE) w
                    ltac:(unfold CHUNK_SIZE; lia)) as Hrs.
      match goal with H : recv _ _ _ = _ |- _ => rewrite H in Hrs end.
      destruct Hrs as (Htr1 & _).
      rewrite He. eexists _, w1. split; [|split; [exact Htr1|]].
      * f_equal. f_equal. cbn. lia.
      * cbn. destruct (Z.ltb_spec 0 bytes_received); [lia | reflexivity].
    + exfalso.
      pose proof (recv_pending sender_socket
                    (Z.min (file_size - total_transferred) CHUNK_SIZE) w
                    ltac:(unfold CHUNK_SIZE; lia) Hne) as Hr.
      match goal with H : recv _ _ _ = _ |- _ => rewrite H in Hr end.
      lia.
  - (* a failing write: excluded *)
    exfalso.
    destruct (string_dec (pending (inbound w sender_socket)) "") as [He|Hne].
    + pose proof (recv_nothing_pending sender_socket
                    (Z.min (file_size - total_transferred) CHUNK_SIZE) w He) as Hr.
      match goal with H : recv _ _ _ = _ |- _ => rewrite H in Hr end.
      cbn in Hr. lia.
    + pose proof (recv_pending sender_socket
                    (Z.min (file_size - total_transferred) CHUNK_SIZE) w
                    ltac:(unfold CHUNK_SIZE; lia) Hne) as Hr.
      match goal with H : recv _ _ _ = _ |- _ => rewrite H in Hr end.
      destruct Hr as (Hpos & Hret & _ & _ & Ho).
      match goal with H : send _ _ _ = _ |- _ =>
        rewrite send_accepting in H by (now rewrite Ho); injection H as <- _ end.
      lia.
  - (* one chunk relayed *)
    destruct (string_dec (pending (inbound w sender_socket)) "") as [He|Hne].
    { exfalso.
      pose proof (recv_nothing_pending sender_socket
                    (Z.min (file_size - total_transferred) CHUNK_SIZE) w He) as Hr.
      match goal with H : recv _ _ _ = _ |- _ => rewrite H in Hr end.
      cbn in Hr. lia. }
    pose proof (recv_pending sender_socket
                  (Z.min (file_size - total_transferred) CHUNK_SIZE) w
                  ltac:(unfold CHUNK_SIZE; lia) Hne) as Hr.
    pose proof (recv_spec sender_socket
                  (Z.min (file_size - total_transferred) CHUNK_SIZE) w
                  ltac:(unfold CHUNK_SIZE; lia)) as Hrs.
    match goal with H : recv _ _ _ = _ |- _ => rewrite H in Hr, Hrs; clear H end.
    destruct Hr as (Hpos & Hret & Hbound & Hsplit & Ho).
    destruct Hrs as (Htr1 & _).
    match goal with H : send _ _ _ = _ |- _ =>
      rewrite send_accepting in H by (now rewrite Ho); injection H as <- <- end.
    destruct H as (tr & w' & Hrun & Htr & Hcat).
    + cbn [inbound log]. rewrite Hsplit in Hshort. unfold strlen in *.
      rewrite length_append in Hshort. lia.
    + cbn. now rewrite Ho.
    + cbn [inbound log] in Hrun, Hcat.
      exists (ERecv sender_socket
                (Z.min (file_size - total_transferred) CHUNK_SIZE)
                bytes_received buffer
              :: ESend recipient_socket buffer (strlen buffer) :: tr), w'.
      split; [|split].
      * rewrite Hrun. f_equal. f_equal. rewrite Hsplit. unfold strlen in *.
        rewrite length_append. lia.
      * rewrite Htr. cbn [trace log]. rewrite Htr1, <- !app_assoc. reflexivity.
      * rewrite Hsplit. cbn [chunks_out].
        destruct (chunks_out tr) eqn:E; cbn [concat] in *.
        -- rewrite <- Hcat. now rewrite append_nil_r.
        -- now rewrite <- Hcat.
Qed.

(** X16. When the sender's stream ends or fails before the declared
    number of bytes has come, [streamFileData] returns [false];
    everything that did come was handed to the recipient, in order, and
    [bytesMoved] is its length. *)
Theorem relay_short_supply (sender_socket recipient_socket : socket)
    (sender_username recipient_username filename : string)
    (file_size : Z) (w : World) :
  strlen (pending (inbound w sender_socket)) < file_size ->
  outbound w recipient_socket = [] ->
  exists tr w',
    streamFileData sender_socket recipient_socket
      sender_username recipient_username filename file_size w
      = ((false, strlen (pending (inbound w sender_socket))), w')
    /\ trace w' = (trace w ++ tr)%list
    /\ concat "" (chunks_out tr) = pending (inbound w sender_socket).
Proof.
  intros Hshort Hout. unfold streamFileData.
  destruct (stream_loop_starves sender_socket recipient_socket file_size 0 w)
    as (tr & w' & Hrun & Htr & Hcat); try assumption; [lia|].
  exists tr, w'. now rewrite Hrun.
Qed.

Lemma send__accepting (fd : socket) (data : string) (w : World) :
  outbound w fd = [] ->
  ChatServer.send_ fd data w = log (ESend fd data (strlen data)) w.
Proof. intros H. unfold ChatServer.send_. now rewrite send_accepting. Qed.

(** The writes of a relay go to the recipient, one per chunk. *)
Lemma relay_calls_sends (s r : socket) (tr : list event) :
  Forall (relay_call s r) tr ->
  sends tr = map (fun chunk => (r, chunk)) (chunks_out tr).
Proof.
  induction 1 as [|e tr He _ IH]; [reflexivity|].
  destruct e as [fd requested ret data | fd data ret | fd];
    cbn [sends chunks_out map]; cbn in He.
  - exact IH.
  - now rewrite He, IH.
  - contradiction.
Qed.

(** X17. A transfer of a size the router lets through (1 to 10_485_760
    bytes) to a registered recipient whose socket takes every write,
    from a sender whose stream holds the declared bytes: the recipient
    gets the offer, the prepare line with name and size, then the file's
    bytes in order and nothing else, and last the sender and the
    recipient get the completion notice; what follows the file on the
    sender's stream stays unread. *)
Theorem transfer_completes (sender_socket : socket)
    (sender_username recipient_username filename : string) (file_size : Z)
    (recipient : ClientInfo) (payload extra : string) (w : World) :
  StdMap.find recipient_username (clients w) = Some recipient ->
  socket_fd recipient <> -1 ->
  0 < file_size <= MAX_FILE_SIZE ->
  strlen payload = file_size ->
  pending (inbound w sender_socket) = payload ++ extra ->
  outbound w (socket_fd recipient) = [] ->
  let w' := ChatServer.handleFileTransfer sender_socket sender_username
              recipient_username filename file_size w in
  let complete_msg :=
    ("[FILE] " ++ ChatServer.check_mark ++ " Transfer complete!")%string in
  exists chunks,
    sends (trace w') =
      (sends (trace w)
       ++ [(socket_fd recipient,
            ("/file_offer from " ++ sender_username ++ " (" ++ filename ++ ", "
               ++ Utils.formatFileSize file_size ++ ") - Accept? (y/n)")%string);
           (socket_fd recipient,
            ("/file_data " ++ sender_username ++ " " ++ filename ++ " "
               ++ to_string file_size)%string)]
       ++ map (fun chunk => (socket_fd recipient, chunk)) chunks
       ++ [(sender_socket, complete_msg);
           (socket_fd recipient, complete_msg)])%list
    /\ concat "" chunks = payload
    /\ pending (inbound w' sender_socket) = extra.
Proof.
  intros Hfind Hfd Hsize Hlen Hpend Hout w' complete_msg. subst w' complete_msg.
  unfold ChatServer.handleFileTransfer. rewrite Hfind.
  destruct (Z.eqb_spec (socket_fd recipient) (-1)) as [|_]; [contradiction|].
  rewrite (send__accepting (socket_fd recipient) _ w) by assumption.
  rewrite (send__accepting (socket_fd recipient) _ (log _ w))
    by (cbn; assumption).
  unfold streamFileData.
  match goal with
  | |- context [stream_loop ?s ?r ?n 0 ?w0] =>
      destruct (stream_loop_delivers s r n 0 w0 payload extra)
        as (tr & w1 & Hrun & Htr & Hsends & Hcat & Hrest & _);
        [unfold strlen in *; lia | lia | exact Hpend | exact Hout |]
  end.
  rewrite Hrun. exists (chunks_out tr). split; [|split; [assumption|]].
  - rewrite !sends_send_, Htr. cbn [trace log].
    rewrite !sends_app, Hsends. cbn [sends]. rewrite <- !app_assoc. reflexivity.
  - now rewrite !inbound_send_.
Qed.

(** X18. The same transfer from a sender whose stream ends or fails
    before the declared size: the recipient gets the offer, the prepare
    line and, in order, the bytes that came, and nobody else gets any of
    them; then the sender and the recipient get
    "ERROR: File transfer failed". *)
Theorem transfer_fails_on_short_stream (sender_socket : socket)
    (sender_username recipient_username filename : string) (file_size : Z)
    (recipient : ClientInfo) (w : World) :
  StdMap.find recipient_username (clients w) = Some recipient ->
  socket_fd recipient <> -1 ->
  0 < file_size <= MAX_FILE_SIZE ->
  strlen (pending (inbound w sender_socket)) < file_size ->
  outbound w (socket_fd recipient) = [] ->
  let w' := ChatServer.handleFileTransfer sender_socket sender_username
              recipient_username filename file_size w in
  exists chunks,
    sends (trace w') =
      (sends (trace w)
       ++ [(socket_fd recipient,
            ("/file_offer from " ++ sender_username ++ " (" ++ filename ++ ", "
               ++ Utils.formatFileSize file_size ++ ") - Accept? (y/n)")%string);
           (socket_fd recipient,
            ("/file_data " ++ sender_username ++ " " ++ filename ++ " "
               ++ to_string file_size)%string)]
       ++ map (fun chunk => (socket_fd recipient, chunk)) chunks
       ++ [(sender_socket, "ERROR: File transfer failed");
           (socket_fd recipient, "ERROR: File transfer failed")])%list
    /\ concat "" chunks = pending (inbound w sender_socket).
Proof.
  intros Hfind Hfd Hsize Hshort Hout w'. subst w'.
  unfold ChatServer.handleFileTransfer. rewrite Hfind.
  destruct (Z.eqb_spec (socket_fd recipient) (-1)) as [|_]; [contradiction|].
  rewrite (send__accepting (socket_fd recipient) _ w) by assumption.
  rewrite (send__accepting (socket_fd recipient) _ (log _ w))
    by (cbn; assumption).
  unfold streamFileData.
  match goal with
  | |- context [stream_loop ?s ?r ?n 0 ?w0] =>
      pose proof (stream_loop_post s r n 0 w0 ltac:(lia)) as Hpost;
      destruct (stream_loop_starves s r n 0 w0)
        as (tr & w1 & Hrun & Htr & Hcat);
        [rewrite Z.sub_0_r; exact Hshort | exact Hout |]
  end.
  rewrite Hrun in Hpost |- *. unfold relay_post in Hpost.
  destruct Hpost as (tr' & Htr' & _ & Hcalls & _).
  assert (tr' = tr) as -> by (rewrite Htr in Htr'; now apply app_inv_head in Htr').
  exists (chunks_out tr). split; [|exact Hcat].
  rewrite !sends_send_, Htr. cbn [trace log].
  rewrite !sends_app, (relay_calls_sends _ _ _ Hcalls). cbn [sends].
  rewrite <- !app_assoc. reflexivity.
Qed.

End RelayDelivery.

(** ** Sizes on the wire: [std::to_string] and [std::stol] *)

Section Decimal.
Import Decimal.
Local Open Scope Z_scope.

Ltac digit_step :=
  cbn [digits]; change (isdigit _) with true; cbv iota;
  match goal with
  | |- context [digit_value ?c] =>
      let v := eval vm_compute in (digit_value c) in
      change (digit_value c) with v
  end.

Lemma digits_positive (d : uint) (p : positive) :
  digits (NilEmpty.string_of_uint d) (Some (Z.pos p))
    = Some (Z.pos (Pos.of_uint_acc d p)).
Proof.
  revert p; induction d; intros p; cbn [NilEmpty.string_of_uint Pos.of_uint_acc];
    [reflexivity | ..];
    digit_step;
    match goal with
    | |- digits _ (Some ?v) = Some (Z.pos (Pos.of_uint_acc _ ?q)) =>
        replace v with (Z.pos q) by lia
    end; apply IHd.
Qed.

Lemma digits_zero (d : uint) :
  digits (NilEmpty.string_of_uint d) (Some 0) = Some (Z.of_N (Pos.of_uint d)).
Proof.
  induction d; cbn [NilEmpty.string_of_uint Pos.of_uint];
    [reflexivity | ..]; digit_step;
    match goal with
    | |- digits _ (Some ?v) = Some (Z.of_N (N.pos (Pos.of_uint_acc _ ?q))) =>
        replace v with (Z.pos q) by lia; apply digits_positive
    | |- digits _ (Some ?v) = _ =>
        replace v with 0 by lia; apply IHd
    end.
Qed.

Lemma string_of_uint_head (d : uint) :
  d <> Nil ->
  exists c rest,
    NilEmpty.string_of_uint d = String c rest /\ isdigit c = true.
Proof.
  destruct d; [congruence | ..]; intros _; cbn; eexists _, _; split; reflexivity.
Qed.

Lemma stol_digits (s : string) (c : ascii) (rest : string) :
  s = String c rest -> isdigit c = true ->
  stol s =
    match digits s (Some 0) with
    | Some v => if (v <? LONG_MIN) || (LONG_MAX <? v) then inl out_of_range else inr v
    | None => inl invalid_argument
    end.
Proof.
  intros -> Hc. unfold stol. cbn [skip_space].
  assert (Hsp : isspace c = false).
  { unfold isdigit, isspace in *.
    destruct (nat_of_ascii c) as [|n]; [discriminate|].
    apply andb_true_iff in Hc as [H1 H2].
    apply Nat.leb_le in H1, H2.
    apply orb_false_iff; split; [apply Nat.eqb_neq; lia|].
    apply andb_false_iff; right. apply Nat.leb_gt; lia. }
  rewrite Hsp.
  assert (Hsign : c <> "-"%char /\ c <> "+"%char)
    by (split; intros ->; discriminate Hc).
  destruct Hsign as [Hm Hp].
  replace (match String c rest with
           | String "-"%char rest0 => (true, rest0)
           | String "+"%char rest0 => (false, rest0)
           | _ => (false, String c rest)
           end) with (false, String c rest).
  - cbn [digits]. rewrite Hc. cbn [Z.mul]. reflexivity.
  - destruct c as [[] [] [] [] [] [] [] []]; try reflexivity; congruence.
Qed.

(** What [std::stol] makes of the decimal text of any integer. *)
Lemma stol_decimal (n : Z) :
  stol (to_string n) =
    if (n <? LONG_MIN) || (LONG_MAX <? n) then inl out_of_range else inr n.
Proof.
  destruct n as [|p|p].
  - reflexivity.
  - unfold to_string. cbn [Z.to_int NilZero.string_of_int].
    pose proof (DecimalPos.Unsigned.to_uint_nonnil p) as Hnil.
    unfold NilZero.string_of_uint.
    destruct (string_of_uint_head _ Hnil) as (c & rest & Hs & Hc).
    replace (match Pos.to_uint p with
             | Nil => "0"%string
             | _ => NilEmpty.string_of_uint (Pos.to_uint p)
             end) with (NilEmpty.string_of_uint (Pos.to_uint p))
      by (destruct (Pos.to_uint p); congruence).
    rewrite (stol_digits _ c rest Hs Hc), digits_zero,
      DecimalPos.Unsigned.of_to. cbn [Z.of_N]. reflexivity.
  - unfold to_string. cbn [Z.to_int NilZero.string_of_int].
    pose proof (DecimalPos.Unsigned.to_uint_nonnil p) as Hnil.
    unfold NilZero.string_of_uint.
    replace (match Pos.to_uint p with
             | Nil => "0"%string
             | _ => NilEmpty.string_of_uint (Pos.to_uint p)
             end) with (NilEmpty.string_of_uint (Pos.to_uint p))
      by (destruct (Pos.to_uint p); congruence).
    destruct (string_of_uint_head _ Hnil) as (c & rest & Hs & Hc).
    unfold stol. cbn [skip_space]. change (isspace "-") with false. cbv iota.
    change (String "-"%char (NilEmpty.string_of_uint (Pos.to_uint p)))
      with (String (Ascii true false true true false true false false)
                   (NilEmpty.string_of_uint (Pos.to_uint p))).
    cbv iota.
    assert (Hd : digits (NilEmpty.string_of_uint (Pos.to_uint p)) None
                 = Some (Z.pos p)).
    { rewrite <- (digits_zero (Pos.to_uint p)) at 1 || idtac.
      transitivity (digits (NilEmpty.string_of_uint (Pos.to_uint p)) (Some 0)).
      - rewrite Hs. cbn [digits]. now rewrite Hc.
      - now rewrite digits_zero, DecimalPos.Unsigned.of_to. }
    rewrite Hd.
    change (- Z.pos p) with (Z.neg p). reflexivity.
Qed.

Lemma stol_reads_decimal (n : Z) :
  LONG_MIN <= n <= LONG_MAX -> stol (to_string n) = inr n.
Proof.
  intros Hn. rewrite stol_decimal.
  destruct (Z.ltb_spec n LONG_MIN); [lia|].
  destruct (Z.ltb_spec LONG_MAX n); [lia|]. reflexivity.
Qed.

Lemma stol_rejects_decimal (n : Z) :
  n < LONG_MIN \/ LONG_MAX < n -> stol (to_string n) = inl out_of_range.
Proof.
  intros Hn. rewrite stol_decimal.
  destruct (Z.ltb_spec n LONG_MIN); [reflexivity|].
  destruct (Z.ltb_spec LONG_MAX n); [reflexivity|]. lia.
Qed.

(** X19. [std::stol] reads back what [std::to_string] wrote: for every
    value of a 64-bit [long] the decimal text parses without exception
    to the same value. *)
Theorem stol_to_string (n : Z) :
  LONG_MIN <= n <= LONG_MAX -> stol (to_string n) = inr n.
Proof. exact (stol_reads_decimal n). Qed.

End Decimal.

(** ** Size fields beyond [long] *)

Section SizeField.
Import ChatServer.
Local Open Scope Z_scope.

(** C5 (the code departs from it). A "/sendfile" line whose size field
    is the decimal text of a number above [LONG_MAX], which is above
    10_485_760, or below [LONG_MIN], which is negative, gets no error:
    [std::stol] throws [std::out_of_range], nothing is sent, and the
    exception leaves [processMessage] with nothing to catch it. *)
Theorem size_beyond_long_aborts_before_reply
    (message sender_username : string) (sender_socket : socket)
    (n : Z) (w : World) :
  found_at_0 (find message "/sendfile" 0) = true ->
  (4 <= List.length (Utils.split message " "))%nat ->
  nth 3 (Utils.split message " ") "" = to_string n ->
  n < LONG_MIN \/ LONG_MAX < n ->
  (n <= 0 \/ 10485760 < n)
  /\ processMessage message sender_username sender_socket w
     = Raise out_of_range w.
Proof.
  intros Hcmd Harity Hfield Hn. split.
  - unfold LONG_MIN, LONG_MAX in Hn. lia.
  - apply unparsable_size_raises; try assumption.
    rewrite Hfield. now apply stol_rejects_decimal.
Qed.

Lemma size_beyond_long_aborts_before_reply_witness :
  found_at_0 (find "/sendfile bob f.txt 99999999999999999999" "/sendfile" 0) = true
  /\ (4 <= List.length
             (Utils.split "/sendfile bob f.txt 99999999999999999999" " "))%nat
  /\ nth 3 (Utils.split "/sendfile bob f.txt 99999999999999999999" " ") ""
       = to_string 99999999999999999999
  /\ (99999999999999999999 < LONG_MIN \/ LONG_MAX < 99999999999999999999)
  /\ processMessage "/sendfile bob f.txt 99999999999999999999" "alice" 4
       example_world
     = Raise out_of_range example_world.
Proof.
  assert (H1 : found_at_0
                 (find "/sendfile bob f.txt 99999999999999999999" "/sendfile" 0)
               = true) by reflexivity.
  assert (H2 : (4 <= List.length
                      (Utils.split "/sendfile bob f.txt 99999999999999999999" " "))%nat)
    by (vm_compute; lia).
  assert (H3 : nth 3 (Utils.split "/sendfile bob f.txt 99999999999999999999" " ") ""
               = to_string 99999999999999999999) by reflexivity.
  assert (H4 : 99999999999999999999 < LONG_MIN \/ LONG_MAX < 99999999999999999999)
    by (right; unfold LONG_MAX; lia).
  split; [exact H1|]. split; [exact H2|]. split; [exact H3|].
  split; [exact H4|].
  exact (proj2 (size_beyond_long_aborts_before_reply
                  "/sendfile bob f.txt 99999999999999999999" "alice" 4
                  99999999999999999999 example_world H1 H2 H3 H4)).
Defined.

End SizeField.

(** ** The client's request and the server's parser *)

Section ClientRequest.
Import Utils ChatClient.
Local Open Scope Z_scope.

Lemma split_loop_field (d : ascii) (a rest : string) (tok : list ascii) :
  free_of d a = true ->
  split_loop (a ++ String d rest) d tok
    = (string_of_list_ascii (rev tok) ++ a)%string :: split_loop rest d [].
Proof.
  revert tok; induction a as [|c a IH]; intros tok Hfree; cbn [append split_loop].
  - now rewrite Ascii.eqb_refl, append_nil_r.
  - cbn [free_of] in Hfree. apply andb_true_iff in Hfree as [Hc Ha].
    apply negb_true_iff in Hc. rewrite Hc, IH by assumption.
    cbn [rev]. now rewrite string_of_list_ascii_app, append_assoc.
Qed.

Lemma split_loop_last (d : ascii) (a : string) (tok : list ascii) :
  free_of d a = true -> (a <> "" \/ tok <> []) ->
  split_loop a d tok = [(string_of_list_ascii (rev tok) ++ a)%string].
Proof.
  revert tok; induction a as [|c a IH]; intros tok Hfree Hne; cbn [split_loop].
  - destruct tok; [destruct Hne; congruence|]. now rewrite append_nil_r.
  - cbn [free_of] in Hfree. apply andb_true_iff in Hfree as [Hc Ha].
    apply negb_true_iff in Hc. rewrite Hc, IH; try assumption.
    + cbn [rev]. now rewrite string_of_list_ascii_app, append_assoc.
    + right; discriminate.
Qed.

Lemma free_of_substring (d : ascii) (s : string) (n m : nat) :
  free_of d s = true -> free_of d (substring n m s) = true.
Proof.
  revert n m; induction s as [|c s IH]; intros [|n] [|m] H; cbn in *;
    try reflexivity; apply andb_true_iff in H as [Hc Hs].
  - now rewrite Hc, IH.
  - now apply IH.
  - now apply IH.
Qed.

Lemma free_of_nth (d : ascii) (l : list string) (i : nat) :
  Forall (fun t => free_of d t = true) l -> free_of d (nth i l "") = true.
Proof.
  intros H; revert i; induction H as [|t l Ht _ IH]; intros [|i]; cbn; auto.
Qed.

Lemma free_of_uint (d : Decimal.uint) :
  free_of " " (NilEmpty.string_of_uint d) = true.
Proof. induction d; cbn; auto. Qed.

Lemma to_string_positive (n : Z) :
  0 < n -> free_of " " (to_string n) = true /\ to_string n <> "".
Proof.
  destruct n as [|p|p]; try lia. intros _.
  unfold to_string. cbn [Z.to_int NilZero.string_of_int].
  pose proof (DecimalPos.Unsigned.to_uint_nonnil p) as Hnil.
  unfold NilZero.string_of_uint.
  destruct (Pos.to_uint p) eqn:E; try congruence;
    (split; [apply (free_of_uint (_ u)) || exact (free_of_uint _) | discriminate]).
Qed.

Lemma prefix_append (a b : string) : prefix a (a ++ b) = true.
Proof.
  induction a as [|c a IH]; cbn; [apply prefix_empty|].
  destruct (Ascii.ascii_dec c c); [assumption | congruence].
Qed.

Lemma index_at_prefix (c : ascii) (a b : string) :
  index 0 (String c a) (String c a ++ b) = Some 0%nat.
Proof.
  pose proof (prefix_append (String c a) b) as H.
  cbn [append index] in *. now rewrite H.
Qed.

Lemma last_char_free (s : string) :
  free_of " " s = true -> last_char s <> Some " "%char.
Proof.
  induction s as [|c s IH]; cbn [free_of last_char]; [discriminate|].
  intros H. apply andb_true_iff in H as [Hc Hs]. apply negb_true_iff in Hc.
  destruct s; [|now apply IH].
  intros [= ->]. discriminate.
Qed.

Lemma last_char_append (a b : string) :
  b <> "" -> last_char (a ++ b) = last_char b.
Proof.
  intros Hb. induction a as [|c a IH]; [reflexivity|].
  cbn [append last_char]. destruct (a ++ b) eqn:E; [|assumption].
  destruct a; [cbn in E; congruence | discriminate].
Qed.

Lemma last_char_spaces (n : nat) : last_char (spaces (S n)) = Some " "%char.
Proof. induction n as [|n IH]; [reflexivity|]. exact IH. Qed.

Lemma rtrim_fixed (r : string) : last_char r <> Some " "%char -> rtrim r = r.
Proof.
  induction r as [|b r IH]; [reflexivity|]. intros Hlast.
  rewrite rtrim_cons. destruct (find_last_not_of r " ") as [j|] eqn:E.
  - rewrite IH; [reflexivity|].
    destruct r; [discriminate E | exact Hlast].
  - apply find_last_None_spaces in E. destruct r as [|c r].
    + cbn in Hlast. destruct (Ascii.eqb_spec b " "); [congruence | reflexivity].
    + exfalso. apply Hlast.
      change (last_char (String b (String c r))) with (last_char (String c r)).
      rewrite E. cbn [length]. apply last_char_spaces.
Qed.

Lemma trim_unchanged (s : string) :
  first_char s <> Some " "%char -> last_char s <> Some " "%char -> trim s = s.
Proof.
  destruct s as [|a r]; [reflexivity|]. cbn [first_char]. intros Ha Hl.
  rewrite trim_nonspace
    by (destruct (Ascii.eqb_spec a " "); [congruence | reflexivity]).
  f_equal. apply rtrim_fixed. destruct r; [discriminate | exact Hl].
Qed.

(** X20. Whenever the client's "/sendfile" command gets as far as
    sending a request, the request is one the server's router takes:
    trimming leaves it as it is, it splits into exactly the four fields
    the client put in, [std::stol] reads the size back, the size passes
    the server's bound, and [processMessage] goes on to
    [handleFileTransfer] without throwing. *)
Theorem client_request_is_served (fileExists : string -> bool)
    (getFileSize : string -> Z) (input filepath request : string)
    (file_size : Z) (sender_username : string) (sender_socket : socket)
    (w : World) :
  sendfile_request fileExists getFileSize input
    = Some (filepath, file_size, request) ->
  let target := nth 1 (split input " ") "" in
  let filename := request_filename filepath in
  trim request = request
  /\ split request " " = ["/sendfile"; target; filename; to_string file_size]
  /\ stol (to_string file_size) = inr file_size
  /\ ChatServer.processMessage request sender_username sender_socket w
     = Ret tt (ChatServer.handleFileTransfer sender_socket sender_username
                 target filename file_size w).
Proof.
  intros Hreq target filename. unfold sendfile_request in Hreq.
  destruct (_ <? 3)%nat; [discriminate|].
  destruct (negb _); [discriminate|].
  destruct (Z.leb_spec (getFileSize (nth 2 (split input " ") "")) 0) as [|Hpos];
    [discriminate|].
  destruct (Z.gtb_spec (getFileSize (nth 2 (split input " ") "")) (10 * 1024 * 1024))
    as [|Hmax]; [discriminate|].
  cbn [orb] in Hreq. injection Hreq as Hpath Hfs Hrq.
  subst filepath file_size request.
  fold target. 
  change (request_filename (nth 2 (split input " ") "")) with filename.
  set (file_size := getFileSize (nth 2 (split input " ") "")) in *.
  assert (Htarget : free_of " " target = true).
  { apply free_of_nth. apply split_loop_free. constructor. }
  assert (Hname : free_of " " filename = true).
  { unfold filename, request_filename.
    assert (Hpath : free_of " " (nth 2 (split input " ") "") = true)
      by (apply free_of_nth; apply split_loop_free; constructor).
    destruct (find_last_of _ _); [|assumption].
    now apply free_of_substring. }
  destruct (to_string_positive file_size Hpos) as [Hsize Hsize_ne].
  assert (Hsplit : split ("/sendfile " ++ target ++ " " ++ filename ++ " "
                            ++ to_string file_size) " "
                   = ["/sendfile"; target; filename; to_string file_size]).
  { unfold split.
    change ("/sendfile " ++ target ++ " " ++ filename ++ " " ++ to_string file_size)%string
      with ("/sendfile" ++ String " " (target ++ String " "
              (filename ++ String " " (to_string file_size))))%string.
    rewrite split_loop_field by reflexivity.
    rewrite split_loop_field by assumption.
    rewrite split_loop_field by assumption.
    rewrite split_loop_last by (auto). reflexivity. }
  assert (Hstol : stol (to_string file_size) = inr file_size).
  { apply stol_reads_decimal. unfold LONG_MIN, LONG_MAX. lia. }
  split; [|split; [exact Hsplit | split; [exact Hstol|]]].
  - apply trim_unchanged; [discriminate|].
    match goal with
    | |- last_char ?r <> _ =>
        replace r
          with (("/sendfile " ++ target ++ " " ++ filename ++ " ")
                  ++ to_string file_size)%string
          by (now rewrite !append_assoc)
    end.
    rewrite last_char_append by assumption. now apply last_char_free.
  - rewrite processMessage_sendfile
      by (unfold ChatServer.find;
          exact (f_equal ChatServer.found_at_0
                   (index_at_prefix "/" "sendfile"
                      (String " " (target ++ String " "
                         (filename ++ String " " (to_string file_size)))))));
    cbv zeta.
    repeat match goal with
    | |- context [split ?r " "] =>
        replace (split r " ")
          with ["/sendfile"; target; filename; to_string file_size]
          by (symmetry; exact Hsplit)
    end.
    cbn [List.length Nat.ltb Nat.leb nth].
    rewrite Hstol.
    destruct (Z.leb_spec file_size 0); [lia|].
    destruct (Z.gtb_spec file_size (10 * 1024 * 1024)); [lia|]. reflexivity.
Qed.

End ClientRequest.

(** ** The client's display filter and file names *)

Section ClientHelpers.
Import ChatClient.
Local Open Scope Z_scope.

Lemma count_printable (total : nat) (msg : string) :
  Forall printable (list_ascii_of_string msg) -> count_unprintable total msg = 0.
Proof.
  revert total; induction msg as [|c msg IH]; intros [|total] H;
    cbn [count_unprintable]; try reflexivity.
  cbn [list_ascii_of_string] in H.
  inversion H as [|? ? Hc Hrest]; subst. rewrite IH by assumption.
  unfold printable in Hc.
  replace ((nat_of_ascii c <? 32)%nat && negb (nat_of_ascii c =? 10)%nat
           && negb (nat_of_ascii c =? 9)%nat && negb (nat_of_ascii c =? 13)%nat)
    with false; [reflexivity|].
  symmetry.
  destruct (Nat.ltb_spec (nat_of_ascii c) 32); [|reflexivity].
  destruct (Nat.eqb_spec (nat_of_ascii c) 10); [reflexivity|].
  destruct (Nat.eqb_spec (nat_of_ascii c) 9); [reflexivity|].
  destruct (Nat.eqb_spec (nat_of_ascii c) 13); [reflexivity|]. lia.
Qed.

(** X21. [isBinaryData] never flags a message shorter than 50 bytes, nor
    one made only of bytes from 32 up and newlines, tabs and carriage
    returns: such text is always displayed. *)
Theorem text_is_not_binary (msg : string) :
  (length msg < 50)%nat \/ Forall printable (list_ascii_of_string msg) ->
  isBinaryData msg = false.
Proof.
  intros [Hshort | Hprint]; unfold isBinaryData.
  - destruct (Nat.ltb_spec (length msg) 50); [reflexivity | lia].
  - destruct (length msg <? 50)%nat; [reflexivity|].
    rewrite count_printable by assumption. cbn [Z.mul].
    destruct (Z.min _ 200); reflexivity.
Qed.

Lemma index_separator (c : ascii) :
  index 0 (String c "") "/\" = None -> Ascii.eqb c "/" = false /\ Ascii.eqb c "\" = false.
Proof.
  cbn [index prefix].
  destruct (Ascii.ascii_dec c "/") as [->|H1]; [discriminate|].
  destruct (Ascii.ascii_dec c "\") as [->|H2]; [discriminate|].
  intros _. split; now apply Ascii.eqb_neq.
Qed.

Lemma substr_from_cons (c : ascii) (s : string) (i : nat) :
  ChatServer.substr_from (String c s) (S i) = ChatServer.substr_from s i.
Proof. reflexivity. Qed.

(** X22. The file name the client puts in its request is the part of
    the path after the last '/' or '\': the path ends with it and it
    holds neither separator. *)
Theorem request_filename_is_basename (filepath : string) :
  (exists dir, filepath = dir ++ request_filename filepath)
  /\ free_of "/" (request_filename filepath) = true
  /\ free_of "\" (request_filename filepath) = true.
Proof.
  unfold request_filename.
  induction filepath as [|c s [[dir Hdir] [Hf1 Hf2]]]; cbn [find_last_of].
  - repeat split. now exists "".
  - destruct (find_last_of s "/\") as [i|] eqn:E.
    + replace (S i + 1)%nat with (S (i + 1)) by lia.
      rewrite substr_from_cons. repeat split; try assumption.
      exists (String c dir). cbn. now rewrite <- Hdir.
    + destruct (index 0 (String c "") "/\") eqn:Ei.
      * cbn [Nat.add]. rewrite substr_from_cons.
        unfold ChatServer.substr_from. rewrite Nat.sub_0_r, substring_all by lia.
        repeat split; try assumption. now exists (String c "").
      * apply index_separator in Ei as [H1 H2].
        repeat split; cbn [free_of]; try (rewrite ?H1, ?H2; assumption).
        now exists "".
Qed.

End ClientHelpers.

(** ** A connection from accept to close *)

Section Connection.
Import ChatServer.
Local Open Scope Z_scope.

Lemma extends_refl (w : World) : extends_open w w.
Proof. exists []. split; [now rewrite app_nil_r | constructor]. Qed.

Lemma extends_trans (w1 w2 w3 : World) :
  extends_open w1 w2 -> extends_open w2 w3 -> extends_open w1 w3.
Proof.
  intros (tr1 & H1 & N1) (tr2 & H2 & N2). exists (tr1 ++ tr2)%list. split.
  - now rewrite H2, H1, app_assoc.
  - apply Forall_app. now split.
Qed.

Lemma extends_send_ (fd : socket) (data : string) (w : World) :
  extends_open w (send_ fd data w).
Proof.
  destruct (trace_send_ fd data w) as [r Hr].
  exists [ESend fd data r]. split; [assumption | repeat constructor].
Qed.

Lemma extends_recv (fd : socket) (n : Z) (w : World) :
  0 <= n -> extends_open w (snd (recv fd n w)).
Proof.
  intros Hn. pose proof (recv_spec fd n w Hn) as H.
  destruct (recv fd n w) as [[ret data] w']. destruct H as (Ht & _).
  exists [ERecv fd n ret data]. split; [assumption | repeat constructor].
Qed.

Lemma extends_same_trace (w w' : World) : trace w' = trace w -> extends_open w w'.
Proof. intros H. exists []. split; [now rewrite app_nil_r | constructor]. Qed.

Lemma extends_broadcast_loop (m : clients_map) (msg sender : string) (w : World) :
  extends_open w (broadcast_loop m msg sender w).
Proof.
  revert w; induction m as [|[name info] m IH]; intros w; cbn; [apply extends_refl|].
  destruct (negb (name =? sender)%string); [|apply IH].
  eapply extends_trans; [apply extends_send_ | apply IH].
Qed.

Lemma extends_sendPrivateMessage (target message sender : string) (w : World) :
  extends_open w (sendPrivateMessage target message sender w).
Proof.
  unfold sendPrivateMessage.
  destruct (StdMap.find target (clients w)).
  - destruct (StdMap.find sender (clients (send_ _ _ w)));
      [eapply extends_trans|]; apply extends_send_.
  - destruct (StdMap.find sender (clients w));
      [apply extends_send_ | apply extends_refl].
Qed.

Lemma extends_stream_loop (s r : socket) (file_size total : Z) (w : World) :
  extends_open w (snd (FileTransferHandler.stream_loop s r file_size total w)).
Proof.
  funelim (FileTransferHandler.stream_loop s r file_size total w);
    try rewrite <- Heqcall; clear Heqcall; cbn [snd] in *.
  - apply extends_refl.
  - pose proof (extends_recv sender_socket
                  (Z.min (file_size - total_transferred)
                         FileTransferHandler.CHUNK_SIZE) w
                  ltac:(unfold FileTransferHandler.CHUNK_SIZE; lia)) as Hr.
    match goal with H : recv _ _ _ = _ |- _ => now rewrite H in Hr end.
  - pose proof (extends_recv sender_socket
                  (Z.min (file_size - total_transferred)
                         FileTransferHandler.CHUNK_SIZE) w
                  ltac:(unfold FileTransferHandler.CHUNK_SIZE; lia)) as Hr.
    match goal with H : recv _ _ _ = _ |- _ => rewrite H in Hr end.
    pose proof (extends_send_ recipient_socket buffer w1) as Hs.
    unfold send_ in Hs.
    match goal with H : send _ _ _ = _ |- _ => rewrite H in Hs end.
    eapply extends_trans; eassumption.
  - pose proof (extends_recv sender_socket
                  (Z.min (file_size - total_transferred)
                         FileTransferHandler.CHUNK_SIZE) w
                  ltac:(unfold FileTransferHandler.CHUNK_SIZE; lia)) as Hr.
    match goal with H : recv _ _ _ = _ |- _ => rewrite H in Hr end.
    pose proof (extends_send_ recipient_socket buffer w1) as Hs.
    unfold send_ in Hs.
    match goal with H : send _ _ _ = _ |- _ => rewrite H in Hs end.
    eapply extends_trans; [eassumption|].
    eapply extends_trans; eassumption.
Qed.

Lemma extends_handleFileTransfer (sender_socket : socket)
    (sender_username recipient_username filename : string) (file_size : Z)
    (w : World) :
  extends_open w (handleFileTransfer sender_socket sender_username
                    recipient_username filename file_size w).
Proof.
  unfold handleFileTransfer, FileTransferHandler.streamFileData.
  destruct (_ =? -1); [apply extends_send_|].
  match goal with
  | |- context [FileTransferHandler.stream_loop ?s ?r ?n ?t ?w0] =>
      pose proof (extends_stream_loop s r n t w0) as H;
      destruct (FileTransferHandler.stream_loop s r n t w0) as [[success moved_] w1]
  end.
  cbn [snd] in H.
  eapply extends_trans; [apply extends_send_|].
  eapply extends_trans; [apply extends_send_|].
  eapply extends_trans; [exact H|].
  destruct success;
    (eapply extends_trans; [apply extends_send_ | apply extends_send_]).
Qed.

Lemma extends_processMessage
    (message sender_username : string) (sender_socket : socket) (w : World) :
  match processMessage message sender_username sender_socket w with
  | Ret _ w' => extends_open w w'
  | Raise _ w' => w' = w
  end.
Proof.
  unfold processMessage, act, raise.
  destruct (String.eqb message "/list"); [apply extends_send_|].
  destruct (found_at_0 (find message "@" 0)).
  { destruct (find message " " 1);
      [apply extends_sendPrivateMessage | apply extends_send_]. }
  destruct (found_at_0 (find message "/sendfile" 0)).
  { destruct (_ <? 4)%nat; [apply extends_send_|].
    destruct (stol _) as [e|file_size]; [reflexivity|].
    destruct (_ || _); [apply extends_send_ | apply extends_handleFileTransfer]. }
  destruct (String.eqb message "/quit"); [apply extends_send_|].
  unfold broadcast. apply extends_broadcast_loop.
Qed.

(** The message loop keeps the registry and closes nothing, however it
    ends. *)
Lemma message_loop_keeps (running : nat) (client_socket : socket)
    (username : string) (w : World) :
  match message_loop running client_socket username w with
  | Ret _ w' | Raise _ w' => clients w' = clients w /\ extends_open w w'
  end.
Proof.
  revert w; induction running as [|running IH]; intros w;
    cbn [message_loop]; [split; [reflexivity | apply extends_refl]|].
  unfold bind, call, ret.
  pose proof (recv_spec client_socket 4095 w ltac:(lia)) as Hspec.
  pose proof (extends_recv client_socket 4095 w ltac:(lia)) as Hext.
  destruct (recv client_socket 4095 w) as [[bytes_read buffer] w1].
  destruct Hspec as (_ & Hcl & _). cbn [snd] in Hext.
  destruct (bytes_read <=? 0); [now split|].
  cbn [Encryption.isEnabled andb].
  destruct (is_empty (Utils.trim buffer)).
  { specialize (IH w1).
    destruct (message_loop running client_socket username w1) as [? w2|? w2];
      destruct IH as [Hc He]; (split; [congruence | eapply extends_trans; eassumption]). }
  pose proof (clients_processMessage (Utils.trim buffer) username client_socket w1) as Hc.
  pose proof (extends_processMessage (Utils.trim buffer) username client_socket w1) as He.
  destruct (processMessage (Utils.trim buffer) username client_socket w1) as [[] w2|e w2].
  - destruct (String.eqb (Utils.trim buffer) "/quit").
    + split; [congruence | eapply extends_trans; eassumption].
    + specialize (IH w2).
      destruct (message_loop running client_socket username w2) as [? w3|? w3];
        destruct IH as [Hc3 He3];
        (split; [congruence|]);
        (eapply extends_trans; [eassumption|]);
        (eapply extends_trans; eassumption).
  - subst w2. now split.
Qed.

Lemma handleClient_return (running : nat) (client_socket : socket)
    (client_addr : sockaddr_in) (w w' : World) :
  handleClient running client_socket client_addr w = Ret tt w' ->
  clients w' = clients w
  /\ exists tr,
       trace w' = (trace w ++ tr ++ [EClose client_socket])%list
       /\ no_close tr.
Proof.
  unfold handleClient, bind, call, authenticate, receive_username.
  pose proof (recv_spec client_socket 4095 w ltac:(lia)) as Hspec.
  pose proof (extends_recv client_socket 4095 w ltac:(lia)) as Hext.
  destruct (recv client_socket 4095 w) as [[bytes_read buffer] w1].
  destruct Hspec as (_ & Hcl & _). cbn [snd] in Hext.
  assert (Hclose : forall w0, extends_open w w0 -> clients w0 = clients w ->
            clients (close client_socket w0) = clients w
            /\ exists tr, trace (close client_socket w0)
                          = (trace w ++ tr ++ [EClose client_socket])%list
                          /\ no_close tr).
  { intros w0 (tr & Htr & Hn) Hc. split; [assumption|].
    exists tr. split; [|assumption].
    rewrite trace_close, Htr, <- app_assoc. reflexivity. }
  destruct (bytes_read <=? 0).
  { intros [= <-]. now apply Hclose. }
  destruct (is_empty (Utils.trim (c_str buffer))
            || negb (isValidUsername (Utils.trim (c_str buffer)))).
  { intros [= <-]. apply Hclose.
    - eapply extends_trans; [eassumption | apply extends_send_].
    - now rewrite clients_send_. }
  unfold check_duplicate.
  destruct (StdMap.find (Utils.trim (c_str buffer)) (clients w1)) eqn:Hfind.
  { intros [= <-]. apply Hclose.
    - eapply extends_trans; [eassumption | apply extends_send_].
    - now rewrite clients_send_. }
  set (u := Utils.trim (c_str buffer)) in *.
  set (w2 := welcome client_socket u
               (registerClient u (mkClient client_socket u client_addr) w1)).
  pose proof (message_loop_keeps running client_socket u w2) as Hloop.
  unfold ret, act.
  destruct (message_loop running client_socket u w2) as [[] w3|e w3];
    [|discriminate].
  destruct Hloop as [Hc3 He3]. intros [= <-].
  unfold cleanup.
  assert (Hc2 : clients w2 = StdMap.assign u (mkClient client_socket u client_addr)
                               (clients w1)).
  { subst w2. now rewrite clients_welcome. }
  assert (He2 : extends_open w1 w2).
  { subst w2. unfold welcome, broadcast.
    eapply extends_trans; [|apply extends_broadcast_loop].
    eapply extends_trans; [|apply extends_send_].
    now apply extends_same_trace. }
  apply Hclose.
  - eapply extends_trans; [eassumption|].
    eapply extends_trans; [eassumption|].
    eapply extends_trans; [eassumption|].
    eapply extends_trans; [apply extends_broadcast_loop|].
    now apply extends_same_trace.
  - unfold deregisterClient, set_clients, broadcast; cbn [clients].
    rewrite clients_broadcast_loop, Hc3, Hc2.
    rewrite erase_assign_absent by assumption. exact Hcl.
Qed.

(** X23. Whenever [handleClient] returns, the registry is as it found
    it and the connection's own socket is closed: it closes it once, as
    its last socket call, and closes no other socket. *)
Theorem handleClient_returns_clean (running : nat) (client_socket : socket)
    (client_addr : sockaddr_in) (w w' : World) :
  handleClient running client_socket client_addr w = Ret tt w' ->
  clients w' = clients w
  /\ exists tr,
       trace w' = (trace w ++ tr ++ [EClose client_socket])%list
       /\ no_close tr.
Proof. exact (handleClient_return running client_socket client_addr w w'). Qed.

(** X24. Whatever a connection receives and however [handleClient]
    ends, by returning or by an exception, the registry stays one that
    is ordered by key and holds only names that pass
    [isValidUsername]. *)
Theorem handleClient_keeps_registry_well_formed (running : nat)
    (client_socket : socket) (client_addr : sockaddr_in) (w : World) :
  reachable (clients w) ->
  match client_thread running client_socket client_addr w with
  | Serving w' | Aborted _ w' =>
      reachable (clients w')
      /\ StdMap.ordered (clients w')
      /\ forall k, In k (StdMap.keys (clients w')) -> isValidUsername k = true
  end.
Proof.
  intros Hr.
  assert (Hgoal : match client_thread running client_socket client_addr w with
                  | Serving w' | Aborted _ w' => reachable (clients w')
                  end).
  { unfold client_thread.
    destruct (handleClient running client_socket client_addr w) as [[] w'|e w'] eqn:Hrun.
    - apply handleClient_return in Hrun as [Hrun _]. now rewrite Hrun.
    - revert Hrun.
      unfold handleClient, bind, call, authenticate, receive_username.
      pose proof (recv_spec client_socket 4095 w ltac:(lia)) as Hspec.
      destruct (recv client_socket 4095 w) as [[bytes_read buffer] w1].
      destruct Hspec as (_ & Hcl & _).
      destruct (bytes_read <=? 0); [discriminate|].
      destruct (isValidUsername (Utils.trim (c_str buffer))) eqn:Hvalid;
        [|rewrite orb_true_r; discriminate].
      destruct (is_empty (Utils.trim (c_str buffer))); [discriminate|].
      cbn [orb negb]. unfold check_duplicate.
      destruct (StdMap.find (Utils.trim (c_str buffer)) (clients w1)); [discriminate|].
      set (u := Utils.trim (c_str buffer)) in *.
      set (w2 := welcome client_socket u
                   (registerClient u (mkClient client_socket u client_addr) w1)).
      pose proof (message_loop_keeps running client_socket u w2) as Hloop.
      unfold ret, act.
      destruct (message_loop running client_socket u w2) as [[] w3|e3 w3];
        [discriminate|].
      intros [= _ <-]. destruct Hloop as [-> _].
      subst w2. rewrite clients_welcome. unfold registerClient; cbn [clients set_clients].
      rewrite Hcl. now apply reach_register. }
  destruct (client_thread running client_socket client_addr w) as [w'|e w'];
    (split; [assumption|]);
    (split; [now apply reachable_ordered | now apply reachable_keys_valid]).
Qed.

End Connection.

(** ** The client side of a transfer *)

Section ClientTransfer.
Import FileTransferHandler FileTransferClient.
Local Open Scope Z_scope.

(** The sending loop when the server's socket takes every write. *)
Lemma sendFile_loop_streams (server_socket : socket) (left : string)
    (total_sent : Z) (w : World) :
  outbound w server_socket = [] ->
  exists chunks w',
    sendFile_loop server_socket left total_sent w
      = (Some (total_sent + strlen left), w')
    /\ sends (trace w') =
         (sends (trace w) ++ map (fun chunk => (server_socket, chunk)) chunks)%list
    /\ concat "" chunks = left
    /\ Forall (fun chunk => 0 < strlen chunk <= CHUNK_SIZE) chunks
    /\ outbound w' server_socket = [].
Proof.
  funelim (sendFile_loop server_socket left total_sent w); intros Hout;
    try rewrite <- Heqcall; clear Heqcall.
  - exists [], w. cbn. rewrite app_nil_r, Z.add_0_r. repeat split; auto.
  - exfalso.
    match goal with H : send _ _ _ = _ |- _ =>
      rewrite send_accepting in H by assumption; injection H as <- _ end.
    unfold strlen, CHUNK_SIZE in *. cbn in *. lia.
  - match goal with H : send _ ?ch _ = _ |- _ => set (chunk := ch) in * end.
    match type of H with
    | context [sendFile_loop _ ?r _ _] => set (rest := r) in *
    end.
    assert (Hsplit : String c s = chunk ++ rest).
    { change (String c s
              = substring 0 (Z.to_nat CHUNK_SIZE) (String c s)
                ++ substring (Z.to_nat CHUNK_SIZE)
                     (length (String c s) - Z.to_nat CHUNK_SIZE) (String c s)).
      apply substring_split. }
    assert (Hsize : 0 < strlen chunk <= CHUNK_SIZE).
    { split.
      - change chunk with (substring 0 (Z.to_nat CHUNK_SIZE) (String c s)).
        assert (E : exists k, Z.to_nat CHUNK_SIZE = S k)
          by (eexists; vm_compute; reflexivity).
        destruct E as [k ->]. unfold strlen. cbn [substring length]. lia.
      - change chunk with (substring 0 (Z.to_nat CHUNK_SIZE) (String c s)).
        unfold strlen.
        pose proof (length_substring_le 0 (Z.to_nat CHUNK_SIZE) (String c s)).
        unfold CHUNK_SIZE in *. lia. }
    clearbody chunk rest.
    match goal with H : send _ _ _ = _ |- _ =>
      rewrite send_accepting in H by assumption; injection H as <- <- end.
    destruct H as (chunks & w' & Hrun & Hsends & Hcat & Hall & Hout');
      [cbn; assumption|].
    exists (chunk :: chunks), w'. repeat split.
    + rewrite Hrun. f_equal. f_equal. rewrite Hsplit.
      unfold strlen. rewrite length_append. lia.
    + rewrite Hsends. cbn [trace log]. rewrite sends_app. cbn [sends map].
      now rewrite <- app_assoc.
    + rewrite Hsplit, <- Hcat.
      destruct chunks; cbn [concat]; [now rewrite append_nil_r | reflexivity].
    + constructor; assumption.
    + assumption.
Qed.

(** X25. [sendFileToServer] on a server socket that takes every write:
    a file that cannot be opened sends nothing and gives [false];
    otherwise the whole file goes out in order, in chunks of 1 to 8192
    bytes, and the result is [true] exactly when the file's length is the
    declared size. *)
Theorem sendFileToServer_streams_file (fs : string -> option string)
    (server_socket : socket) (filename : string) (file_size : Z) (w : World) :
  outbound w server_socket = [] ->
  match fs filename with
  | None => sendFileToServer fs server_socket filename file_size w = (false, w)
  | Some content =>
      exists chunks w',
        sendFileToServer fs server_socket filename file_size w
          = ((strlen content =? file_size), w')
        /\ sends (trace w') =
             (sends (trace w)
              ++ map (fun chunk => (server_socket, chunk)) chunks)%list
        /\ concat "" chunks = content
        /\ Forall (fun chunk => 0 < strlen chunk <= CHUNK_SIZE) chunks
  end.
Proof.
  intros Hout. unfold sendFileToServer.
  destruct (fs filename) as [content|]; [|reflexivity].
  destruct (sendFile_loop_streams server_socket content 0 w Hout)
    as (chunks & w' & Hrun & Hsends & Hcat & Hall & _).
  exists chunks, w'. rewrite Hrun. cbn [Z.add].
  repeat split; try assumption.
  now destruct (strlen content =? file_size).
Qed.

(** The receiving loop when the bytes are pending and the disk takes
    every write. *)
Lemma receive_loop_saves (server_socket : socket) (file_size total : Z)
    (written : string) (disk : list bool) (w : World) :
  forall payload extra,
  total <= file_size ->
  strlen payload = file_size - total ->
  pending (inbound w server_socket) = payload ++ extra ->
  Forall (fun ok => ok = true) disk ->
  exists w',
    receive_loop server_socket file_size total written disk w
      = ((Some file_size, written ++ payload), w')
    /\ pending (inbound w' server_socket) = extra
    /\ sends (trace w') = sends (trace w).
Proof.
  funelim (receive_loop server_socket file_size total written disk w);
    intros payload extra Hle Hlen Hpend Hdisk;
    try rewrite <- Heqcall; clear Heqcall.
  - assert (payload = "") as ->
      by (destruct payload; [reflexivity | unfold strlen in Hlen; cbn in Hlen; lia]).
    exists w. rewrite append_nil_r. cbn in Hpend. repeat split; try assumption.
    f_equal. f_equal. f_equal. lia.
  - exfalso.
    assert (Hne : pending (inbound w server_socket) <> "").
    { rewrite Hpend. destruct payload;
        [unfold strlen in Hlen; cbn in Hlen; lia | discriminate]. }
    pose proof (recv_pending server_socket
                  (Z.min (file_size - total_received) CHUNK_SIZE) w
                  ltac:(unfold CHUNK_SIZE; lia) Hne) as Hr.
    match goal with H : recv _ _ _ = _ |- _ => rewrite H in Hr end. lia.
  - (* one chunk written, nothing left on the disk script *)
    assert (Hne : pending (inbound w server_socket) <> "").
    { rewrite Hpend. destruct payload;
        [unfold strlen in Hlen; cbn in Hlen; lia | discriminate]. }
    pose proof (recv_pending server_socket
                  (Z.min (file_size - total_received) CHUNK_SIZE) w
                  ltac:(unfold CHUNK_SIZE; lia) Hne) as Hr.
    pose proof (recv_spec server_socket
                  (Z.min (file_size - total_received) CHUNK_SIZE) w
                  ltac:(unfold CHUNK_SIZE; lia)) as Hrs.
    match goal with H : recv _ _ _ = _ |- _ => rewrite H in Hr, Hrs; clear H end.
    destruct Hr as (Hpos & Hret & Hbound & Hsplit & Ho).
    destruct Hrs as (Htr1 & _).
    rewrite Hpend in Hsplit. symmetry in Hsplit.
    apply append_cancel_prefix in Hsplit as (payload' & -> & Hrest);
      [|unfold strlen in *; lia].
    destruct (H payload' extra) as (w' & Hrun & Hp' & Hs').
    + lia.
    + unfold strlen in *. rewrite length_append in Hlen. lia.
    + exact Hrest.
    + constructor.
    + exists w'. rewrite Hrun, append_assoc. repeat split; try assumption.
      rewrite Hs', Htr1, sends_app. cbn. now rewrite app_nil_r.
  - (* one chunk written, the disk script goes on *)
    assert (Hne : pending (inbound w server_socket) <> "").
    { rewrite Hpend. destruct payload;
        [unfold strlen in Hlen; cbn in Hlen; lia | discriminate]. }
    pose proof (recv_pending server_socket
                  (Z.min (file_size - total_received) CHUNK_SIZE) w
                  ltac:(unfold CHUNK_SIZE; lia) Hne) as Hr.
    pose proof (recv_spec server_socket
                  (Z.min (file_size - total_received) CHUNK_SIZE) w
                  ltac:(unfold CHUNK_SIZE; lia)) as Hrs.
    match goal with H : recv _ _ _ = _ |- _ => rewrite H in Hr, Hrs; clear H end.
    destruct Hr as (Hpos & Hret & Hbound & Hsplit & Ho).
    destruct Hrs as (Htr1 & _).
    rewrite Hpend in Hsplit. symmetry in Hsplit.
    apply append_cancel_prefix in Hsplit as (payload' & -> & Hrest);
      [|unfold strlen in *; lia].
    destruct (H payload' extra) as (w' & Hrun & Hp' & Hs').
    + lia.
    + unfold strlen in *. rewrite length_append in Hlen. lia.
    + exact Hrest.
    + cbn [tl]. now inversion Hdisk.
    + exists w'. rewrite Hrun, append_assoc. repeat split; try assumption.
      rewrite Hs', Htr1, sends_app. cbn. now rewrite app_nil_r.
  - exfalso. apply Forall_inv in Hdisk. cbn beta in Hdisk. discriminate.
Qed.

(** The receiving loop when fewer bytes are pending than are missing. *)
Lemma receive_loop_starves (server_socket : socket) (file_size total : Z)
    (written : string) (disk : list bool) (w : World) :
  strlen (pending (inbound w server_socket)) < file_size - total ->
  Forall (fun ok => ok = true) disk ->
  exists w',
    receive_loop server_socket file_size total written disk w
      = ((None, written ++ pending (inbound w server_socket)), w')
    /\ sends (trace w') = sends (trace w).
Proof.
  funelim (receive_loop server_socket file_size total written disk w);
    intros Hshort Hdisk; try rewrite <- Heqcall; clear Heqcall.
  - exfalso. unfold strlen in Hshort. lia.
  - destruct (string_dec (pending (inbound w server_socket)) "") as [He|Hne].
    + pose proof (recv_spec server_socket
                    (Z.min (file_size - total_received) CHUNK_SIZE) w
                    ltac:(unfold CHUNK_SIZE; lia)) as Hrs.
      match goal with H : recv _ _ _ = _ |- _ => rewrite H in Hrs end.
      destruct Hrs as (Htr1 & _).
      exists w1. rewrite He, append_nil_r. split; [reflexivity|].
      rewrite Htr1, sends_app. cbn. now rewrite app_nil_r.
    + exfalso.
      pose proof (recv_pending server_socket
                    (Z.min (file_size - total_received) CHUNK_SIZE) w
                    ltac:(unfold CHUNK_SIZE; lia) Hne) as Hr.
      match goal with H : recv _ _ _ = _ |- _ => rewrite H in Hr end.
      lia.
  - destruct (string_dec (pending (inbound w server_socket)) "") as [He|Hne].
    { exfalso.
      pose proof (recv_nothing_pending server_socket
                    (Z.min (file_size - total_received) CHUNK_SIZE) w He) as Hr.
      match goal with H : recv _ _ _ = _ |- _ => rewrite H in Hr end.
      cbn in Hr. lia. }
    pose proof (recv_pending server_socket
                  (Z.min (file_size - total_received) CHUNK_SIZE) w
                  ltac:(unfold CHUNK_SIZE; lia) Hne) as Hr.
    pose proof (recv_spec server_socket
                  (Z.min (file_size - total_received) CHUNK_SIZE) w
                  ltac:(unfold CHUNK_SIZE; lia)) as Hrs.
    match goal with H : recv _ _ _ = _ |- _ => rewrite H in Hr, Hrs; clear H end.
    destruct Hr as (Hpos & Hret & Hbound & Hsplit & Ho).
    destruct Hrs as (Htr1 & _).
    destruct H as (w' & Hrun & Hs').
    + rewrite Hsplit in Hshort. unfold strlen in *.
      rewrite length_append in Hshort. lia.
    + constructor.
    + exists w'. rewrite Hrun, Hsplit, append_assoc. split; [reflexivity|].
      rewrite Hs', Htr1, sends_app. cbn. now rewrite app_nil_r.
  - destruct (string_dec (pending (inbound w server_socket)) "") as [He|Hne].
    { exfalso.
      pose proof (recv_nothing_pending server_socket
                    (Z.min (file_size - total_received) CHUNK_SIZE) w He) as Hr.
      match goal with H : recv _ _ _ = _ |- _ => rewrite H in Hr end.
      cbn in Hr. lia. }
    pose proof (recv_pending server_socket
                  (Z.min (file_size - total_received) CHUNK_SIZE) w
                  ltac:(unfold CHUNK_SIZE; lia) Hne) as Hr.
    pose proof (recv_spec server_socket
                  (Z.min (file_size - total_received) CHUNK_SIZE) w
                  ltac:(unfold CHUNK_SIZE; lia)) as Hrs.
    match goal with H : recv _ _ _ = _ |- _ => rewrite H in Hr, Hrs; clear H end.
    destruct Hr as (Hpos & Hret & Hbound & Hsplit & Ho).
    destruct Hrs as (Htr1 & _).
    destruct H as (w' & Hrun & Hs').
    + rewrite Hsplit in Hshort. unfold strlen in *.
      rewrite length_append in Hshort. lia.
    + cbn [tl]. now inversion Hdisk.
    + exists w'. rewrite Hrun, Hsplit, append_assoc. split; [reflexivity|].
      rewrite Hs', Htr1, sends_app. cbn. now rewrite app_nil_r.
  - exfalso. apply Forall_inv in Hdisk. cbn beta in Hdisk. discriminate.
Qed.

(** X26. [receiveFileFromServer] when the output file can be created and
    every write to it succeeds: the file holds the first [file_size]
    bytes the server's socket delivers (all of them when fewer arrive),
    nothing is sent, and the result is [true] exactly when [file_size]
    bytes did arrive. *)
Theorem receiveFileFromServer_saves_prefix (disk : list bool)
    (server_socket : socket) (sender filename : string) (file_size : Z)
    (w : World) :
  0 <= file_size ->
  Forall (fun ok => ok = true) disk ->
  exists w',
    receiveFileFromServer true disk server_socket sender filename file_size w
      = ((file_size <=? strlen (pending (inbound w server_socket)),
          substring 0 (Z.to_nat file_size) (pending (inbound w server_socket))),
         w')
    /\ sends (trace w') = sends (trace w).
Proof.
  intros Hsize Hdisk. unfold receiveFileFromServer. cbn [negb].
  set (p := pending (inbound w server_socket)).
  destruct (Z.leb_spec file_size (strlen p)) as [Hle|Hlt].
  - destruct (receive_loop_saves server_socket file_size 0 "" disk w
                (substring 0 (Z.to_nat file_size) p)
                (substring (Z.to_nat file_size)
                   (length p - Z.to_nat file_size) p))
      as (w' & Hrun & _ & Hs).
    + assumption.
    + unfold strlen in *. rewrite length_substring_prefix by lia. lia.
    + apply substring_split.
    + assumption.
    + exists w'. rewrite Hrun, Z.eqb_refl. cbn. now split.
  - destruct (receive_loop_starves server_socket file_size 0 "" disk w)
      as (w' & Hrun & Hs).
    + fold p. lia.
    + assumption.
    + exists w'. rewrite Hrun. cbn. fold p.
      rewrite substring_all by (unfold strlen in Hlt; lia). now split.
Qed.

End ClientTransfer.

(** ** Further instances *)

Section MoreInstances.
Import ChatServer.
Local Open Scope Z_scope.

Lemma deregister_lookup_witness :
  StdMap.ordered (clients example_world)
  /\ StdMap.find "bob" (clients (deregisterClient "bob" example_world)) = None.
Proof.
  assert (H : StdMap.ordered (clients example_world)) by (repeat constructor).
  split; [exact H | exact (proj1 (deregister_lookup "bob" example_world H))].
Defined.

Lemma register_then_deregister_witness :
  StdMap.find "carol" (clients example_world) = None
  /\ deregisterClient "carol"
       (registerClient "carol" (mkClient 6 "carol" example_addr) example_world)
     = example_world.
Proof.
  split; [reflexivity|].
  exact (register_then_deregister "carol" (mkClient 6 "carol" example_addr)
           example_world eq_refl).
Defined.

Lemma private_message_to_absent_target_witness :
  free_of " " "carol" = true
  /\ StdMap.find "carol" (clients example_world) = None
  /\ exists w',
       processMessage "@carol hello" "alice" 4 example_world = Ret tt w'
       /\ sends (trace w') = [(4, "ERROR: User 'carol' not found or offline")].
Proof.
  split; [reflexivity|]. split; [reflexivity|].
  destruct (private_message_to_absent_target "carol" "hello" "alice" 4
              example_world eq_refl eq_refl) as (w' & Hrun & Hsends & _).
  exists w'. split; [exact Hrun | exact Hsends].
Defined.

Lemma private_message_delivery_witness :
  free_of " " "bob" = true
  /\ StdMap.find "bob" (clients example_world)
       = Some (mkClient 5 "bob" example_addr)
  /\ exists w',
       processMessage "@bob hello" "alice" 4 example_world = Ret tt w'
       /\ sends (trace w') = [(5, "[PRIVATE] alice -> You: hello");
                              (4, "[PRIVATE] You -> bob: hello")].
Proof.
  split; [reflexivity|]. split; [reflexivity|].
  destruct (private_message_delivery "bob" "hello" "alice" 4
              (mkClient 5 "bob" example_addr) example_world eq_refl eq_refl)
    as (w' & Hrun & Hsends & _).
  exists w'. split; [exact Hrun | exact Hsends].
Defined.

Lemma private_message_without_text_witness :
  free_of " " "bob" = true
  /\ exists w',
       processMessage "@bob" "alice" 4 example_world = Ret tt w'
       /\ sends (trace w')
            = [(4, "ERROR: Invalid format. Use: @username message")].
Proof.
  split; [reflexivity|].
  destruct (private_message_without_text "bob" "alice" 4 example_world eq_refl)
    as (w' & Hrun & Hsends & _).
  exists w'. split; [exact Hrun | exact Hsends].
Defined.

Lemma relay_exact_delivery_witness :
  strlen "12345678" = 8
  /\ pending (inbound relay_world 4) = "12345678" ++ ""
  /\ outbound relay_world 5 = []
  /\ exists tr w',
       FileTransferHandler.streamFileData 4 5 "alice" "bob" "f.txt" 8 relay_world
         = ((true, 8), w')
       /\ concat "" (chunks_out tr) = "12345678".
Proof.
  split; [reflexivity|]. split; [reflexivity|]. split; [reflexivity|].
  destruct (relay_exact_delivery 4 5 "alice" "bob" "f.txt" 8 "12345678" ""
              relay_world eq_refl eq_refl eq_refl)
    as (tr & w' & Hrun & _ & _ & Hcat & _).
  exists tr, w'. split; [exact Hrun | exact Hcat].
Defined.

Lemma relay_short_supply_witness :
  strlen (pending (inbound relay_world 4)) < 9
  /\ outbound relay_world 5 = []
  /\ exists w',
       FileTransferHandler.streamFileData 4 5 "alice" "bob" "f.txt" 9 relay_world
         = ((false, 8), w').
Proof.
  assert (H : strlen (pending (inbound relay_world 4)) < 9) by (vm_compute; reflexivity).
  split; [exact H|]. split; [reflexivity|].
  destruct (relay_short_supply 4 5 "alice" "bob" "f.txt" 9 relay_world H eq_refl)
    as (tr & w' & Hrun & _).
  exists w'. exact Hrun.
Defined.

Lemma transfer_completes_witness :
  StdMap.find "bob" (clients relay_world) = Some (mkClient 5 "bob" example_addr)
  /\ 5 <> -1
  /\ 0 < 8 <= FileTransferHandler.MAX_FILE_SIZE
  /\ strlen "12345678" = 8
  /\ pending (inbound relay_world 4) = "12345678" ++ ""
  /\ outbound relay_world 5 = []
  /\ exists chunks,
       sends (trace (handleFileTransfer 4 "alice" "bob" "f.txt" 8 relay_world))
         = ([(5, "/file_offer from alice (f.txt, 8 B) - Accept? (y/n)");
             (5, "/file_data alice f.txt 8")]
            ++ map (fun chunk => (5, chunk)) chunks
            ++ [(4, ("[FILE] " ++ check_mark ++ " Transfer complete!")%string);
                (5, ("[FILE] " ++ check_mark ++ " Transfer complete!")%string)])%list
       /\ concat "" chunks = "12345678".
Proof.
  assert (H : 5 <> -1) by discriminate.
  assert (Hb : 0 < 8 <= FileTransferHandler.MAX_FILE_SIZE)
    by (unfold FileTransferHandler.MAX_FILE_SIZE; lia).
  split; [reflexivity|]. split; [exact H|]. split; [exact Hb|].
  split; [reflexivity|]. split; [reflexivity|]. split; [reflexivity|].
  destruct (transfer_completes 4 "alice" "bob" "f.txt" 8
              (mkClient 5 "bob" example_addr) "12345678" "" relay_world
              eq_refl H Hb eq_refl eq_refl eq_refl) as (chunks & Hsends & Hcat & _).
  exists chunks. split; [exact Hsends | exact Hcat].
Defined.

Lemma transfer_fails_on_short_stream_witness :
  StdMap.find "bob" (clients relay_world) = Some (mkClient 5 "bob" example_addr)
  /\ 5 <> -1
  /\ 0 < 9 <= FileTransferHandler.MAX_FILE_SIZE
  /\ strlen (pending (inbound relay_world 4)) < 9
  /\ outbound relay_world 5 = []
  /\ exists chunks,
       sends (trace (handleFileTransfer 4 "alice" "bob" "f.txt" 9 relay_world))
         = ([(5, "/file_offer from alice (f.txt, 9 B) - Accept? (y/n)");
             (5, "/file_data alice f.txt 9")]
            ++ map (fun chunk => (5, chunk)) chunks
            ++ [(4, "ERROR: File transfer failed");
                (5, "ERROR: File transfer failed")])%list
       /\ concat "" chunks = "12345678".
Proof.
  assert (H : 5 <> -1) by discriminate.
  assert (Hb : 0 < 9 <= FileTransferHandler.MAX_FILE_SIZE)
    by (unfold FileTransferHandler.MAX_FILE_SIZE; lia).
  assert (Hs : strlen (pending (inbound relay_world 4)) < 9)
    by (vm_compute; reflexivity).
  split; [reflexivity|]. split; [exact H|]. split; [exact Hb|].
  split; [exact Hs|]. split; [reflexivity|].
  destruct (transfer_fails_on_short_stream 4 "alice" "bob" "f.txt" 9
              (mkClient 5 "bob" example_addr) relay_world
              eq_refl H Hb Hs eq_refl) as (chunks & Hsends & Hcat).
  exists chunks. split; [exact Hsends | exact Hcat].
Defined.

Lemma stol_to_string_witness :
  LONG_MIN <= -42 <= LONG_MAX /\ stol (to_string (-42)) = inr (-42).
Proof.
  assert (H : LONG_MIN <= -42 <= LONG_MAX) by (unfold LONG_MIN, LONG_MAX; lia).
  split; [exact H | exact (stol_to_string (-42) H)].
Defined.

Lemma client_request_is_served_witness :
  ChatClient.sendfile_request (fun _ => true) (fun _ => 8)
      "/sendfile bob docs/f.txt"
    = Some ("docs/f.txt", 8, "/sendfile bob f.txt 8")
  /\ processMessage "/sendfile bob f.txt 8" "alice" 4 relay_world
     = Ret tt (handleFileTransfer 4 "alice" "bob" "f.txt" 8 relay_world).
Proof.
  assert (H : ChatClient.sendfile_request (fun _ => true) (fun _ => 8)
                "/sendfile bob docs/f.txt"
              = Some ("docs/f.txt", 8, "/sendfile bob f.txt 8")) by reflexivity.
  split; [exact H|].
  exact (proj2 (proj2 (proj2
           (client_request_is_served (fun _ => true) (fun _ => 8)
              "/sendfile bob docs/f.txt" "docs/f.txt" "/sendfile bob f.txt 8"
              8 "alice" 4 relay_world H)))).
Defined.

Lemma text_is_not_binary_witness :
  ((length "hello" < 50)%nat
   \/ Forall printable (list_ascii_of_string "hello"))
  /\ ChatClient.isBinaryData "hello" = false.
Proof.
  assert (H : (length "hello" < 50)%nat
              \/ Forall printable (list_ascii_of_string "hello"))
    by (left; cbn; lia).
  split; [exact H | exact (text_is_not_binary "hello" H)].
Defined.

Lemma handleClient_returns_clean_witness :
  handleClient 1 4 example_addr join_world
    = Ret tt (world_of (handleClient 1 4 example_addr join_world))
  /\ clients (world_of (handleClient 1 4 example_addr join_world))
     = clients join_world.
Proof.
  assert (H : handleClient 1 4 example_addr join_world
              = Ret tt (world_of (handleClient 1 4 example_addr join_world)))
    by reflexivity.
  split; [exact H|].
  exact (proj1 (handleClient_returns_clean 1 4 example_addr join_world _ H)).
Defined.

Lemma handleClient_keeps_registry_well_formed_witness :
  reachable (clients example_world)
  /\ match client_thread 1 6 example_addr example_world with
     | Serving w' | Aborted _ w' => StdMap.ordered (clients w')
     end.
Proof.
  split; [exact example_registry_reachable|].
  pose proof (handleClient_keeps_registry_well_formed 1 6 example_addr
                example_world example_registry_reachable) as H.
  destruct (client_thread 1 6 example_addr example_world);
    exact (proj1 (proj2 H)).
Defined.

Lemma sendFileToServer_streams_file_witness :
  outbound example_world 4 = []
  /\ exists chunks w',
       FileTransferClient.sendFileToServer (fun _ => Some "hello") 4 "f.txt" 5
         example_world = (true, w')
       /\ concat "" chunks = "hello".
Proof.
  split; [reflexivity|].
  destruct (sendFileToServer_streams_file (fun _ => Some "hello") 4 "f.txt" 5
              example_world eq_refl) as (chunks & w' & Hrun & _ & Hcat & _).
  exists chunks, w'. split; [exact Hrun | exact Hcat].
Defined.

Lemma receiveFileFromServer_saves_prefix_witness :
  0 <= 8
  /\ Forall (fun ok => ok = true) (@nil bool)
  /\ exists w',
       FileTransferClient.receiveFileFromServer true [] 4 "alice" "f.txt" 8
         relay_world = ((true, "12345678"), w').
Proof.
  assert (H : 0 <= 8) by lia.
  split; [exact H|]. split; [constructor|].
  destruct (receiveFileFromServer_saves_prefix [] 4 "alice" "f.txt" 8
              relay_world H (Forall_nil _)) as (w' & Hrun & _).
  exists w'. exact Hrun.
Defined.

End MoreInstances.
